(** * picture_bot_tg: history store, selector, dispatch and scheduler

    A shallow embedding of [history.py] and of the selection, dispatch and
    scheduling code of [main.py], with the properties of the design
    document stated over it.

    Conventions.
    - Python's [set] of JSON scalars is a [gset atom]; lists are [list].
    - Code that can raise returns a [result]; synchronous code threads the
      process state ([M]), coroutines ([async def]) are resumptions that
      stop at every awaited network call ([coro]).
    - Answers of the outside world (clock, random generator, file system,
      network) are inputs: the [env] record for synchronous calls, the
      answer given at each resumption for awaited calls. *)

From stdpp Require Import base gmap sets list strings countable.
From Stdlib Require Import ZArith Lia.
From Stdlib Require DecimalString.

#[local] Set Warnings "-register-all,-clear-no-such-hyp".
Local Open Scope Z_scope.
Local Open Scope string_scope.

(** ** Python runtime values *)

(** The error code of a failed call into the operating system. *)
Inductive errno : Type :=
  | ENOENT
  | EACCES
  | EISDIR
  | ENOSPC
  | EIO.

(** The [Exception] subclasses the program can meet.  An [OSError]
    ([IOError] is an alias of it) carries its error code; with [ENOENT]
    it is a [FileNotFoundError].  [JSONDecodeError] is a [ValueError].
    Signals that derive from [BaseException] only (keyboard interrupt,
    interpreter exit, task cancellation) are not errors and are not part
    of the model. *)
Inductive exn : Type :=
  | OSError (code : errno)
  | TelegramError
  | HttpError
  | JSONDecodeError
  | ValueError
  | TypeError
  | AttributeError
  | IndexError.

(** [isinstance(e, IOError)] *)
Definition is_IOError (e : exn) : bool :=
  match e with
  | OSError _ => true
  | _ => false
  end.

(** [isinstance(e, json.JSONDecodeError)] *)
Definition is_JSONDecodeError (e : exn) : bool :=
  match e with JSONDecodeError => true | _ => false end.

(** [isinstance(e, TelegramError)] *)
Definition is_TelegramError (e : exn) : bool :=
  match e with TelegramError => true | _ => false end.

(** [isinstance(e, FileNotFoundError)] *)
Definition is_FileNotFoundError (e : exn) : bool :=
  match e with OSError ENOENT => true | _ => false end.

Inductive result (A : Type) : Type :=
  | Ret (a : A)
  | Raise (e : exn).
Arguments Ret {A} a.
Arguments Raise {A} e.

(** Hashable JSON scalars: what a history set can hold.  Numbers are
    integers; JSON booleans and floats are left out. *)
Inductive atom : Type :=
  | AStr (s : string)
  | AInt (n : Z)
  | ANone.

#[global] Instance atom_eq_dec : EqDecision atom.
Proof. solve_decision. Defined.

#[global] Instance atom_countable : Countable atom.
Proof.
  refine (inj_countable'
    (λ a, match a with
          | AStr s => inl s
          | AInt n => inr (inl n)
          | ANone => inr (inr ())
          end)
    (λ x, match x with
          | inl s => AStr s
          | inr (inl n) => AInt n
          | inr (inr _) => ANone
          end) _).
  by intros [].
Defined.

(** A decoded JSON document; a dictionary is its list of items, looked up
    from the front. *)
Inductive json : Type :=
  | JAtom (a : atom)
  | JList (l : list json)
  | JDict (kv : list (string * json)).

(** What the history file holds: the text of a whole JSON document
    (named by the value it decodes to), or text that stops before the
    document is closed. *)
Inductive file_content : Type :=
  | Complete (v : json)
  | Torn.

(** [json.load(f)] *)
Definition json_load (c : file_content) : result json :=
  match c with
  | Complete v => Ret v
  | Torn => Raise JSONDecodeError
  end.

(** [d.get(key, default)] *)
Fixpoint dict_get (kv : list (string * json)) (key : string) (default : json) : json :=
  match kv with
  | [] => default
  | (k, v) :: kv' => if String.eqb k key then v else dict_get kv' key default
  end.

(** The elements of a JSON list as set members; [None] when one of them
    is unhashable (a list or a dictionary). *)
Fixpoint hashables (l : list json) : option (list atom) :=
  match l with
  | [] => Some []
  | JAtom a :: l' => option_map (cons a) (hashables l')
  | _ :: _ => None
  end.

(** The characters of a string, each as a string of length one (a
    string is its UTF-8 bytes here, so this is exact for ASCII text). *)
Fixpoint chars (s : string) : list atom :=
  match s with
  | EmptyString => []
  | String c s' => AStr (String c EmptyString) :: chars s'
  end.

(** [set(v)]: iterates a list, a string (its characters) or a dictionary
    (its keys); anything else is not iterable. *)
Definition py_set (v : json) : result (gset atom) :=
  match v with
  | JList l =>
      match hashables l with
      | Some xs => Ret (list_to_set xs)
      | None => Raise TypeError
      end
  | JDict kv => Ret (list_to_set (map (λ p, AStr (fst p)) kv))
  | JAtom (AStr s) => Ret (list_to_set (chars s))
  | JAtom _ => Raise TypeError
  end.

(** [not x] for a value that is a string or [None] *)
Definition falsy (x : option string) : bool :=
  match x with
  | None => true
  | Some s => String.eqb s ""
  end.

(** A string or [None] where Python tests its truth: the value when it
    is true, [None] when it is false. *)
Definition truthy (x : option string) : option string :=
  if falsy x then None else x.

(** ** Process state *)

(** One constructor per [logger] call of the two modules. *)
Inductive log_event : Type :=
  | LogHistoryNotFound
  | LogHistoryLoaded (n : nat)
  | LogHistoryLoadError (e : exn)
  | LogHistorySaved (n : nat)
  | LogHistorySaveError (e : exn)
  | LogImageAdded (image_path : string)
  | LogHistoryReset (n : nat)
  | LogRemovedFromHistory (image_path : string)
  | LogAllImagesSent
  | LogTotalSent (n : nat)
  | LogNoUnsentImages
  | LogFailedToDownload (image_name : string)
  | LogImageSent (image_name : string)
  | LogCacheCleaned (image_name : string)
  | LogCacheCleanFailed (e : exn)
  | LogTelegramError (e : exn)
  | LogFileNotFound (e : exn)
  | LogUnexpectedError (e : exn)
  | LogDriveImageNotFound (image_name : string)
  | LogDriveDownloaded (image_name : string)
  | LogDriveDownloadFailed (image_name : string) (e : exn)
  | LogDriveDownloadError (e : exn)
  | LogIntervalChanged (minutes : Z)
  | LogOutsideWorkingHours
  | LogExecutingScheduledSend
  | LogScheduledSendError (e : exn)
  | LogJobQueueConfigured (minutes : Z).

(** [HistoryManager]: the attributes set by [__init__]. *)
Record HistoryManager : Type := mkHistoryManager {
  history_file : string;
  sent_images : gset atom
}.

(** [GoogleDriveManager.images]: the [(id, name)] entries of the folder. *)
Record GoogleDriveManager : Type := mkGoogleDriveManager {
  images : list (string * string)
}.

(** A chat is addressed by number or by channel name. *)
Inductive chat_id : Type :=
  | ChatInt (n : Z)
  | ChatName (s : string).

(** A job registered by [job_queue.run_repeating]: it runs [job_first]
    seconds after registration and then every [job_interval] seconds. *)
Record Job : Type := mkJob {
  job_name : string;
  job_interval : Z;
  job_first : Z;
  job_data : chat_id
}.

(** The module globals of [main.py], the history file on disk, the
    application's job queue and the log. *)
Record state : Type := mkState {
  history_manager : HistoryManager;
  google_drive_manager : option GoogleDriveManager;
  available_images : list string;
  current_send_interval : Z;
  job_queue : list Job;
  disk : option file_content;
  log : list log_event
}.

Definition set_sent_images (S : gset atom) (s : state) : state :=
  mkState (mkHistoryManager (history_file (history_manager s)) S)
          (google_drive_manager s) (available_images s)
          (current_send_interval s) (job_queue s) (disk s) (log s).

Definition set_disk (d : option file_content) (s : state) : state :=
  mkState (history_manager s) (google_drive_manager s) (available_images s)
          (current_send_interval s) (job_queue s) d (log s).

Definition set_current_send_interval (n : Z) (s : state) : state :=
  mkState (history_manager s) (google_drive_manager s) (available_images s)
          n (job_queue s) (disk s) (log s).

Definition add_job (j : Job) (s : state) : state :=
  mkState (history_manager s) (google_drive_manager s) (available_images s)
          (current_send_interval s) (job_queue s ++ [j]) (disk s) (log s).

Definition add_log (ev : log_event) (s : state) : state :=
  mkState (history_manager s) (google_drive_manager s) (available_images s)
          (current_send_interval s) (job_queue s) (disk s) (log s ++ [ev]).

(** ** Synchronous code: state and exceptions *)

Definition M (A : Type) : Type := state → state * result A.

Definition ret {A} (a : A) : M A := λ s, (s, Ret a).

Definition raise {A} (e : exn) : M A := λ s, (s, Raise e).

Definition bind {A B} (m : M A) (f : A → M B) : M B :=
  λ s, match m s with
       | (s', Ret a) => f a s'
       | (s', Raise e) => (s', Raise e)
       end.

Notation "x <- m ;; k" := (bind m (λ x, k))
  (at level 100, m at next level, right associativity).
Notation "m ;;; k" := (bind m (λ _, k))
  (at level 100, right associativity).

(** [try: m except <class> as e: h e]; an exception outside the class
    passes through. *)
Definition try_except {A} (m : M A) (class : exn → bool) (h : exn → M A) : M A :=
  λ s, match m s with
       | (s', Raise e) => if class e then h e s' else (s', Raise e)
       | r => r
       end.

(** [isinstance(e, Exception)] *)
Definition is_Exception (e : exn) : bool := true.

Definition get {A} (f : state → A) : M A := λ s, (s, Ret (f s)).

Definition modify (f : state → state) : M unit := λ s, (f s, Ret ()).

Definition logger (ev : log_event) : M unit := modify (add_log ev).

(** A call into a library that either returns or raises, as the
    environment decides. *)
Definition attempt (outcome : option exn) : M unit :=
  match outcome with
  | None => ret ()
  | Some e => raise e
  end.

(** A call into the operating system: it returns, or raises [OSError]. *)
Definition attempt_os (outcome : option errno) : M unit :=
  attempt (OSError <$> outcome).

(** ** history.py *)

Definition HISTORY_FILE : string := "sent_history.json".

(** How a rewrite of the history file ends: the record is written in
    full, the file cannot be opened (and keeps its content), or the file
    was opened, which empties it, and writing stops before the end. *)
Inductive write_outcome : Type :=
  | WriteOk
  | OpenFails (code : errno)
  | DumpFails (code : errno).

(** [HistoryManager._load_history]; [rd] is the outcome of opening the
    file for reading.  A [TypeError] from [set(...)] is not among the
    caught classes and leaves the function. *)
Definition _load_history (rd : option errno) : M (gset atom) :=
  λ s, match disk s with
       | None => (logger LogHistoryNotFound ;;; ret ∅) s
       | Some c =>
           try_except
             (attempt_os rd ;;;
              data <- (λ s, (s, json_load c)) ;;
              images <- (λ s, (s, match data with
                                  | JDict kv => py_set (dict_get kv "images" (JList []))
                                  | _ => py_set data
                                  end)) ;;
              logger (LogHistoryLoaded (size images)) ;;;
              ret images)
             (λ e, is_JSONDecodeError e || is_IOError e)
             (λ e, logger (LogHistoryLoadError e) ;;; ret ∅) s
       end.

(** [HistoryManager.__init__]: a new instance, loaded from the file. *)
Definition HistoryManager_init (rd : option errno) : M HistoryManager :=
  images <- _load_history rd ;;
  ret (mkHistoryManager HISTORY_FILE images).

(** The record [_save_history] builds: the ids in some order, the time of
    the write, and the number of ids. *)
Definition history_record (S : gset atom) (now : string) : json :=
  JDict [ ("images", JList (map JAtom (elements S)));
          ("last_updated", JAtom (AStr now));
          ("total_count", JAtom (AInt (Z.of_nat (size S)))) ].

(** [open(self.history_file, 'w')]: on success the file is there and
    empty, which is not a JSON document. *)
Definition open_w (wo : write_outcome) : M unit :=
  match wo with
  | OpenFails code => raise (OSError code)
  | _ => modify (set_disk (Some Torn))
  end.

(** [json.dump(data, f, ...)] into the file just opened, up to the close
    of the file. *)
Definition json_dump (data : json) (wo : write_outcome) : M unit :=
  match wo with
  | DumpFails code => raise (OSError code)
  | _ => modify (set_disk (Some (Complete data)))
  end.

(** [HistoryManager._save_history]; [now] is [datetime.now().isoformat()]. *)
Definition _save_history (now : string) (wo : write_outcome) : M unit :=
  try_except
    (S <- get (λ s, sent_images (history_manager s)) ;;
     let data := history_record S now in
     open_w wo ;;;
     json_dump data wo ;;;
     logger (LogHistorySaved (size S)))
    is_IOError
    (λ e, logger (LogHistorySaveError e)).

(** [HistoryManager.add_image] *)
Definition add_image (image_path : string) (now : string) (wo : write_outcome) : M unit :=
  modify (λ s, set_sent_images (sent_images (history_manager s) ∪ {[AStr image_path]}) s) ;;;
  _save_history now wo ;;;
  logger (LogImageAdded image_path).

(** [HistoryManager.is_sent] *)
Definition is_sent (self : HistoryManager) (image_path : string) : bool :=
  bool_decide (AStr image_path ∈ sent_images self).

(** [HistoryManager.get_unsent_images] *)
Definition get_unsent_images (self : HistoryManager) (available : list string) : list string :=
  List.filter (λ img, negb (is_sent self img)) available.

(** [HistoryManager.get_stats]: [total_sent] and [history_file]. *)
Definition get_stats (self : HistoryManager) : nat * string :=
  (size (sent_images self), history_file self).

(** [HistoryManager.reset_history] *)
Definition reset_history (now : string) (wo : write_outcome) : M nat :=
  old_count <- get (λ s, size (sent_images (history_manager s))) ;;
  modify (set_sent_images ∅) ;;;
  _save_history now wo ;;;
  logger (LogHistoryReset old_count) ;;;
  ret old_count.

(** [HistoryManager.remove_image] *)
Definition remove_image (image_path : string) (now : string) (wo : write_outcome) : M bool :=
  S <- get (λ s, sent_images (history_manager s)) ;;
  if bool_decide (AStr image_path ∈ S) then
    modify (set_sent_images (S ∖ {[AStr image_path]})) ;;;
    _save_history now wo ;;;
    logger (LogRemovedFromHistory image_path) ;;;
    ret true
  else ret false.

(** ** Coroutines *)

(** The texts the bot replies with, by the data they show. *)
Inductive message : Type :=
  | MsgWelcome
  | MsgStats (total sent unsent : nat)
  | MsgHistoryReset (cleared : nat)
  | MsgHelp
  | MsgNoNewImages
  | MsgImageSent
  | MsgSendError
  | MsgIntervalMenu (minutes : Z)
  | MsgIntervalChanged (minutes : Z).

(** An awaited call that reaches the network: [bot.send_photo] and
    [update.message.reply_text]. *)
Inductive request : Type :=
  | SendPhoto (chat : chat_id) (path : string)
  | ReplyText (m : message).

(** A coroutine that has run as far as it can on the event loop: it is
    finished, or it waits for the answer to a request.  The state it
    leaves is the process state at that moment; when it is resumed it is
    handed the process state of that later moment. *)
Inductive coro (A : Type) : Type :=
  | Done (s : state) (r : result A)
  | Await (s : state) (rq : request) (k : result unit → state → coro A).
Arguments Done {A} s r.
Arguments Await {A} s rq k.

Definition task (A : Type) : Type := state → coro A.

Fixpoint bindC {A B} (c : coro A) (f : A → task B) : coro B :=
  match c with
  | Done s (Ret a) => f a s
  | Done s (Raise e) => Done s (Raise e)
  | Await s rq k => Await s rq (λ ans s', bindC (k ans s') f)
  end.

Definition bindT {A B} (t : task A) (f : A → task B) : task B :=
  λ s, bindC (t s) f.

Notation "x <<- t ;; k" := (bindT t (λ x, k))
  (at level 100, t at next level, right associativity).
Notation "t >>> k" := (bindT t (λ _, k))
  (at level 100, right associativity).

Definition retT {A} (a : A) : task A := λ s, Done s (Ret a).

(** Synchronous code inside a coroutine. *)
Definition sync {A} (m : M A) : task A :=
  λ s, let (s', r) := m s in Done s' r.

(** [await <request>] *)
Definition await (rq : request) : task unit :=
  λ s, Await s rq (λ ans s', Done s' ans).

Fixpoint catchC {A} (c : coro A) (class : exn → bool) (h : exn → task A) : coro A :=
  match c with
  | Done s (Raise e) => if class e then h e s else Done s (Raise e)
  | Done s (Ret a) => Done s (Ret a)
  | Await s rq k => Await s rq (λ ans s', catchC (k ans s') class h)
  end.

(** [try: t except <class> as e: h e] around code that awaits. *)
Definition try_exceptT {A} (t : task A) (class : exn → bool) (h : exn → task A) : task A :=
  λ s, catchC (t s) class h.

(** Running a coroutine alone, every request answered at once by [answer]. *)
Fixpoint run {A} (answer : request → result unit) (c : coro A) : state * result A :=
  match c with
  | Done s r => (s, r)
  | Await s rq k => run answer (k (answer rq) s)
  end.

(** The coroutine ends without an exception, whatever answers its requests
    get and whatever the process state is each time it is resumed. *)
Fixpoint ends_normally {A} (c : coro A) : Prop :=
  match c with
  | Done _ (Ret _) => True
  | Done _ (Raise _) => False
  | Await _ _ k => ∀ ans s', ends_normally (k ans s')
  end.

(** ** config.py and the environment *)

(** The [Config] attributes the core reads. *)
Record Config : Type := mkConfig {
  CHAT_ID : string;
  IMAGE_SOURCE : string;
  GOOGLE_DRIVE_CACHE_DIR : string;
  START_HOUR : Z;
  END_HOUR : Z
}.

(** What the outside world answers to the synchronous calls of one
    handler run. *)
Record env : Type := mkEnv {
  rand : nat;                      (* the draw behind [random.choice] *)
  now : string;                    (* [datetime.now().isoformat()] *)
  hour : Z;                        (* [datetime.now().hour] *)
  makedirs_outcome : option errno; (* [os.makedirs(cache_dir, exist_ok=True)] *)
  download_outcome : option exn;   (* the Drive download inside [download_image] *)
  open_outcome : option errno;     (* [open(image_path, 'rb')] *)
  save_outcome : write_outcome;    (* the rewrite of the history file *)
  remove_outcome : option errno    (* [os.remove(image_path)] *)
}.

(** ** google_drive.py *)

(** [GoogleDriveManager.get_image_by_name] *)
Fixpoint get_image_by_name (imgs : list (string * string)) (name : string) : option (string * string) :=
  match imgs with
  | [] => None
  | img :: imgs' => if String.eqb (snd img) name then Some img else get_image_by_name imgs' name
  end.

(** [GoogleDriveManager.download_image]: it catches every error of the
    transfer and answers with a boolean. *)
Definition download_image (ev : env) (file_id file_name output_path : string) : M bool :=
  try_except
    (attempt (download_outcome ev) ;;;
     logger (LogDriveDownloaded file_name) ;;;
     ret true)
    is_Exception
    (λ e, logger (LogDriveDownloadFailed file_name e) ;;; ret false).

(** [os.path.join(a, b)] on POSIX *)
Definition os_path_join (a b : string) : string :=
  if String.prefix "/" b then b
  else if String.eqb a "" || String.eqb (String.substring (String.length a - 1) 1 a) "/" then a ++ b
  else a ++ "/" ++ b.

(** ** main.py: selection *)

(** [random.choice(seq)] is [seq[randbelow(len(seq))]]; the draw [rand]
    stands for the generator, [randbelow n] being [rand mod n]. *)
Definition random_choice {A} (rand : nat) (seq : list A) : option A :=
  seq !! Nat.modulo rand (length seq).

(** [get_random_image] *)
Definition get_random_image (ev : env) : M (option string) :=
  unsent_images <- get (λ s, get_unsent_images (history_manager s) (available_images s)) ;;
  match unsent_images with
  | [] =>
      logger LogAllImagesSent ;;;
      stats <- get (λ s, get_stats (history_manager s)) ;;
      logger (LogTotalSent (fst stats)) ;;;
      ret None
  | _ :: _ =>
      match random_choice (rand ev) unsent_images with
      | Some selected_image => ret (Some selected_image)
      | None => raise IndexError
      end
  end.

(** ** main.py: dispatch *)

(** [download_image_from_google_drive]: declared [async] but it awaits
    nothing, so it runs to its end without leaving the event loop. *)
Definition download_image_from_google_drive (cfg : Config) (ev : env) (image_name : string) : M (option string) :=
  try_except
    (let cache_dir := GOOGLE_DRIVE_CACHE_DIR cfg in
     attempt_os (makedirs_outcome ev) ;;;
     manager <- get google_drive_manager ;;
     match manager with
     | None => raise AttributeError
     | Some manager =>
         match get_image_by_name (images manager) image_name with
         | None => logger (LogDriveImageNotFound image_name) ;;; ret None
         | Some image_info =>
             let local_path := os_path_join cache_dir image_name in
             success <- download_image ev (fst image_info) image_name cache_dir ;;
             if success then ret (Some local_path) else ret None
         end
     end)
    is_Exception
    (λ e, logger (LogDriveDownloadError e) ;;; ret None).

(** The body of [send_image] from the [with open(...)] statement on. *)
Definition deliver (cfg : Config) (ev : env) (chat : chat_id) (image_name image_path : string) : task bool :=
  sync (attempt_os (open_outcome ev)) >>>
  await (SendPhoto chat image_path) >>>
  sync (add_image image_name (now ev) (save_outcome ev)) >>>
  sync (logger (LogImageSent image_name)) >>>
  (if String.eqb (IMAGE_SOURCE cfg) "google_drive" then
     sync (try_except
             (attempt_os (remove_outcome ev) ;;; logger (LogCacheCleaned image_name))
             is_Exception
             (λ e, logger (LogCacheCleanFailed e)))
   else retT ()) >>>
  retT true.

(** [send_image] *)
Definition send_image (cfg : Config) (ev : env) (chat : chat_id) : task bool :=
  try_exceptT
    (image_name <<- sync (get_random_image ev) ;;
     match truthy image_name with
     | None => sync (logger LogNoUnsentImages) >>> retT false
     | Some image_name =>
         if String.eqb (IMAGE_SOURCE cfg) "google_drive" then
           image_path <<- sync (download_image_from_google_drive cfg ev image_name) ;;
           match truthy image_path with
           | None => sync (logger (LogFailedToDownload image_name)) >>> retT false
           | Some image_path => deliver cfg ev chat image_name image_path
           end
         else deliver cfg ev chat image_name image_name
     end)
    is_Exception
    (λ e, if is_TelegramError e then sync (logger (LogTelegramError e)) >>> retT false
          else if is_FileNotFoundError e then sync (logger (LogFileNotFound e)) >>> retT false
          else sync (logger (LogUnexpectedError e)) >>> retT false).

(** ** main.py: commands *)

(** [int(s)] for a decimal numeral with an optional minus sign. *)
Definition py_int (s : string) : result Z :=
  match DecimalString.NilEmpty.int_of_string s with
  | Some d => Ret (Z.of_int d)
  | None => Raise ValueError
  end.

(** [try: int(Config.CHAT_ID) except ValueError: Config.CHAT_ID] *)
Definition channel_id (cfg : Config) : chat_id :=
  match py_int (CHAT_ID cfg) with
  | Ret n => ChatInt n
  | Raise _ => ChatName (CHAT_ID cfg)
  end.

(** [cmd_start] *)
Definition cmd_start : task unit := await (ReplyText MsgWelcome).

(** [cmd_stats] *)
Definition cmd_stats : task unit :=
  stats <<- sync (get (λ s, get_stats (history_manager s))) ;;
  unsent <<- sync (get (λ s, get_unsent_images (history_manager s) (available_images s))) ;;
  total <<- sync (get (λ s, length (available_images s))) ;;
  await (ReplyText (MsgStats total (fst stats) (length unsent))).

(** [cmd_reset_history] *)
Definition cmd_reset_history (ev : env) : task unit :=
  cleared_count <<- sync (reset_history (now ev) (save_outcome ev)) ;;
  await (ReplyText (MsgHistoryReset cleared_count)).

(** [cmd_help] *)
Definition cmd_help : task unit := await (ReplyText MsgHelp).

(** [cmd_send_now] *)
Definition cmd_send_now (cfg : Config) (ev : env) : task unit :=
  unsent <<- sync (get (λ s, get_unsent_images (history_manager s) (available_images s))) ;;
  match unsent with
  | [] => await (ReplyText MsgNoNewImages)
  | _ :: _ =>
      success <<- send_image cfg ev (channel_id cfg) ;;
      if success then await (ReplyText MsgImageSent)
      else await (ReplyText MsgSendError)
  end.

(** [cmd_set_interval] *)
Definition cmd_set_interval : task unit :=
  minutes <<- sync (get current_send_interval) ;;
  await (ReplyText (MsgIntervalMenu minutes)).

(** The [interval_map] of [handle_message]. *)
Definition interval_map : list (string * Z) :=
  [ ("15 мин", 15); ("30 мин", 30); ("45 мин", 45); ("1 час", 60) ].

(** [interval_map[text]] when [text in [...]] *)
Fixpoint interval_lookup (m : list (string * Z)) (text : string) : option Z :=
  match m with
  | [] => None
  | (k, v) :: m' => if String.eqb text k then Some v else interval_lookup m' text
  end.

(** [handle_message] *)
Definition handle_message (cfg : Config) (ev : env) (text : string) : task unit :=
  if String.eqb text "📊 Статистика" then cmd_stats
  else if String.eqb text "🖼️ Отправить сейчас" then cmd_send_now cfg ev
  else if String.eqb text "🔄 Сбросить историю" then cmd_reset_history ev
  else if String.eqb text "ℹ️ Справка" then cmd_help
  else if String.eqb text "⚙️ Интервал" then cmd_set_interval
  else match interval_lookup interval_map text with
       | Some minutes =>
           sync (modify (set_current_send_interval minutes)) >>>
           await (ReplyText (MsgIntervalChanged minutes)) >>>
           sync (logger (LogIntervalChanged minutes))
       | None =>
           if String.eqb text "Назад" then cmd_start
           else retT ()
       end.

(** ** main.py: scheduling *)

(** The working-hours test of [scheduled_send]: true when the tick is
    to be skipped. *)
Definition outside_working_hours (cfg : Config) (current_hour : Z) : bool :=
  (current_hour <? START_HOUR cfg)%Z || (current_hour >=? END_HOUR cfg)%Z.

(** [scheduled_send], with the send action it awaits as an argument. *)
Definition scheduled_send_with (send_action : chat_id → task bool)
    (cfg : Config) (ev : env) (job : Job) : task unit :=
  try_exceptT
    (let current_hour := hour ev in
     if outside_working_hours cfg current_hour then
       sync (logger LogOutsideWorkingHours)
     else
       let channel_id := job_data job in
       sync (logger LogExecutingScheduledSend) >>>
       send_action channel_id >>>
       retT ())
    is_Exception
    (λ e, sync (logger (LogScheduledSendError e))).

(** [scheduled_send]: the send action is [send_image]. *)
Definition scheduled_send (cfg : Config) (ev : env) (job : Job) : task unit :=
  scheduled_send_with (send_image cfg ev) cfg ev job.

(** [setup_schedule] *)
Definition setup_schedule (chat : chat_id) : M unit :=
  minutes <- get current_send_interval ;;
  let interval_seconds := minutes * 60 in
  modify (add_job (mkJob "repeating_image_send" interval_seconds 60 chat)) ;;;
  logger (LogJobQueueConfigured minutes).

(** The time, in seconds after its registration, at which a repeating
    job runs for the [k]-th time ([k] from 0). *)
Definition fire_time (j : Job) (k : nat) : Z :=
  job_first j + Z.of_nat k * job_interval j.

(** ** The event loop *)

(** A handler run on the event loop: created and not yet started,
    suspended on a request, or finished. *)
Inductive tstate (A : Type) : Type :=
  | Created (t : task A)
  | Suspended (rq : request) (k : result unit → state → coro A)
  | Finished (r : result A).
Arguments Created {A} t.
Arguments Suspended {A} rq k.
Arguments Finished {A} r.

(** The process state shared by all handler runs, and the runs. *)
Record loop : Type := mkLoop {
  shared : state;
  tasks : list (tstate unit)
}.

Definition settle {A} (c : coro A) : state * tstate A :=
  match c with
  | Done s r => (s, Finished r)
  | Await s rq k => (s, Suspended rq k)
  end.

(** The loop runs task [i] until it next awaits or ends: a created task
    is started, a suspended one is resumed with the answer [ans] to its
    request.  Nothing else runs meanwhile. *)
Definition step (i : nat) (ans : result unit) (l : loop) : loop :=
  match tasks l !! i with
  | Some (Created t) =>
      let (s, ts) := settle (t (shared l)) in mkLoop s (<[i := ts]> (tasks l))
  | Some (Suspended rq k) =>
      let (s, ts) := settle (k ans (shared l)) in mkLoop s (<[i := ts]> (tasks l))
  | _ => l
  end.

(** A schedule: which task the loop runs next, and with which answer. *)
Fixpoint exec (schedule : list (nat * result unit)) (l : loop) : loop :=
  match schedule with
  | [] => l
  | (i, ans) :: schedule' => exec schedule' (step i ans l)
  end.

(** A dispatch is in flight while its run waits for the delivery: it has
    selected an item and has not yet reached [add_image]. *)
Definition in_flight {A} (ts : tstate A) : bool :=
  match ts with
  | Suspended (SendPhoto _ _) _ => true
  | _ => false
  end.

Definition dispatches_in_flight (l : loop) : nat :=
  length (List.filter in_flight (tasks l)).

(** The requests the suspended runs wait on. *)
Definition pending_requests (l : loop) : list request :=
  omap (λ ts, match ts with Suspended rq _ => Some rq | _ => None end) (tasks l).

(** ** config.py: the settings and their validation *)

(** The attributes of the [Config] class as the environment gives them:
    an unset variable without default is [None]. *)
Module Settings.

Record t : Type := mk {
  BOT_TOKEN : option string;
  CHAT_ID : option string;
  IMAGE_SOURCE : string;
  IMAGES_PATH : option string;
  GOOGLE_DRIVE_CREDENTIALS : string;
  GOOGLE_DRIVE_FOLDER_ID : option string;
  GOOGLE_DRIVE_CACHE_DIR : string;
  SEND_INTERVAL : Z;
  START_HOUR : Z;
  END_HOUR : Z
}.

End Settings.

(** [x == v] for [x] a string or [None] *)
Definition is_str (x : option string) (v : string) : bool :=
  match x with
  | Some s => String.eqb s v
  | None => false
  end.

(** [Config.IMAGE_EXTENSIONS] *)
Definition IMAGE_EXTENSIONS : list string :=
  [".jpg"; ".jpeg"; ".png"; ".gif"; ".bmp"; ".webp"].

(** [ext in Config.IMAGE_EXTENSIONS] *)
Definition in_extensions (ext : string) : bool :=
  existsb (String.eqb ext) IMAGE_EXTENSIONS.

(** [errors.append(error)] *)
Definition append (errors : list string) (error : string) : list string :=
  (errors ++ [error])%list.

(** [if failed: errors.append(error)] *)
Definition check (failed : bool) (error : string) (errors : list string) : list string :=
  if failed then append errors error else errors.

(** [Config.is_valid]; [path_exists] is [os.path.exists]. *)
Definition is_valid (path_exists : string → bool) (c : Settings.t) : bool * list string :=
  let errors : list string := [] in
  let errors :=
    check (falsy (Settings.BOT_TOKEN c)
           || is_str (Settings.BOT_TOKEN c) "YOUR_BOT_TOKEN_HERE")
          "BOT_TOKEN not configured in .env file" errors in
  let errors :=
    check (falsy (Settings.CHAT_ID c)) "CHAT_ID not set in .env file" errors in
  let errors :=
    if String.eqb (Settings.IMAGE_SOURCE c) "local" then
      if falsy (Settings.IMAGES_PATH c)
         || is_str (Settings.IMAGES_PATH c) "/path/to/your/images/folder"
      then append errors "IMAGES_PATH not configured in .env file"
      else if negb (path_exists (default "" (Settings.IMAGES_PATH c)))
      then append errors ("Images path does not exist: "
                            ++ default "" (Settings.IMAGES_PATH c))
      else errors
    else if String.eqb (Settings.IMAGE_SOURCE c) "google_drive" then
      let errors :=
        check (falsy (Settings.GOOGLE_DRIVE_FOLDER_ID c)
               || is_str (Settings.GOOGLE_DRIVE_FOLDER_ID c) "your_folder_id_here")
              "GOOGLE_DRIVE_FOLDER_ID not configured in .env file" errors in
      check (negb (path_exists (Settings.GOOGLE_DRIVE_CREDENTIALS c)))
            ("Google Drive credentials file not found: "
               ++ Settings.GOOGLE_DRIVE_CREDENTIALS c) errors
    else append errors ("Invalid IMAGE_SOURCE: " ++ Settings.IMAGE_SOURCE c
                          ++ ". Use 'local' or 'google_drive'") in
  let errors :=
    check (Settings.SEND_INTERVAL c <=? 0)%Z
          "SEND_INTERVAL must be greater than 0" errors in
  let errors :=
    check ((Settings.START_HOUR c <? 0)%Z || (Settings.START_HOUR c >? 23)%Z)
          "START_HOUR must be between 0 and 23" errors in
  let errors :=
    check ((Settings.END_HOUR c <? 0)%Z || (Settings.END_HOUR c >? 23)%Z)
          "END_HOUR must be between 0 and 23" errors in
  let errors :=
    check (Settings.START_HOUR c >=? Settings.END_HOUR c)%Z
          "START_HOUR must be less than END_HOUR" errors in
  (Nat.eqb (length errors) 0, errors).

(** The settings as the dispatch and scheduling code reads them. *)
Definition core (c : Settings.t) : Config :=
  mkConfig (default "" (Settings.CHAT_ID c)) (Settings.IMAGE_SOURCE c)
           (Settings.GOOGLE_DRIVE_CACHE_DIR c) (Settings.START_HOUR c) (Settings.END_HOUR c).

(** ** File names *)

(** [c.lower()] for one character: the ASCII capitals are lowered, every
    other byte is kept (no other character lowers to a letter of the
    image extensions). *)
Definition lower_ascii (c : Ascii.ascii) : Ascii.ascii :=
  let n := Ascii.nat_of_ascii c in
  if (65 <=? n)%nat && (n <=? 90)%nat then Ascii.ascii_of_nat (n + 32) else c.

(** [s.lower()] *)
Fixpoint lower (s : string) : string :=
  match s with
  | EmptyString => EmptyString
  | String c s' => String (lower_ascii c) (lower s')
  end.

(** [s.endswith(ext)] *)
Fixpoint endswith (s ext : string) : bool :=
  String.eqb s ext ||
  match s with
  | EmptyString => false
  | String _ s' => endswith s' ext
  end.

(** The part of [s] from its last dot on, when it has a dot. *)
Fixpoint from_last_dot (s : string) : option string :=
  match s with
  | EmptyString => None
  | String c s' =>
      match from_last_dot s' with
      | Some t => Some t
      | None => if String.eqb (String c "") "." then Some s else None
      end
  end.

(** [PurePath.suffix] of a file name: with [i = name.rfind('.')], it is
    [name[i:]] when [0 < i < len(name) - 1] and empty otherwise. *)
Definition suffix (name : string) : string :=
  match name with
  | EmptyString => ""
  | String _ rest =>
      match from_last_dot rest with
      | Some t => if String.eqb t "." then "" else t
      | None => ""
      end
  end.

(** The test of [load_images_from_local] on a file name. *)
Definition has_image_suffix (name : string) : bool :=
  in_extensions (lower (suffix name)).

(** The test of [GoogleDriveManager.load_images] on a file name. *)
Definition has_image_ending (name : string) : bool :=
  existsb (endswith (lower name)) IMAGE_EXTENSIONS.

(** ** Starting up *)

(** An entry of a directory as [iterdir] gives it: [str(f)], [f.name]
    and [f.is_file()]. *)
Record dir_entry : Type := mkEntry {
  entry_path : string;
  entry_name : string;
  entry_is_file : bool
}.

(** What the machine and the Drive service answer during start-up. *)
Record host : Type := mkHost {
  path_exists : string → bool;                    (* [os.path.exists] *)
  iterdir : string → result (list dir_entry);     (* [Path(p).iterdir()] *)
  authenticate : option exn;                      (* the body of [_authenticate] *)
  drive_files : result (list (string * string));  (* the [(id, name)] of [files().list(...)] *)
  create_file : string → option exn;              (* [files().create(...)] of a file name *)
  build_application : option exn                  (* [Application.builder()...build()] *)
}.

(** The log lines of the start-up code of [main.py] and of
    [google_drive.py]. *)
Inductive startup_event : Type :=
  | LogImagesPathNotFound
  | LogNoImagesFound
  | LogLoadedLocal (n : nat)
  | LogDriveAuthenticated
  | LogDriveAuthFailed (e : exn)
  | LogDriveListed (n : nat)
  | LogDriveListFailed (e : exn)
  | LogFailedToLoadFromDrive
  | LogLoadedFromDrive (n : nat)
  | LogErrorLoadingFromDrive (e : exn)
  | LogStarting
  | LogConfigurationErrors
  | LogConfigurationError (error : string)
  | LogFailedToLoadImages
  | LogCommandHandlersRegistered
  | LogBotConnected
  | LogBotRunning.

(** The process while it starts: the state of the running bot and the
    start-up log. *)
Record boot : Type := mkBoot {
  proc : state;
  startup_log : list startup_event
}.

Definition B (A : Type) : Type := boot → boot * result A.

Definition retB {A} (a : A) : B A := λ b, (b, Ret a).

Definition raiseB {A} (e : exn) : B A := λ b, (b, Raise e).

Definition bindB {A C} (m : B A) (f : A → B C) : B C :=
  λ b, match m b with
       | (b', Ret a) => f a b'
       | (b', Raise e) => (b', Raise e)
       end.

Notation "x <-- m ;; k" := (bindB m (λ x, k))
  (at level 100, m at next level, right associativity).
Notation "m ;;- k" := (bindB m (λ _, k))
  (at level 100, right associativity).

(** [try: m except Exception as e: h e] *)
Definition tryB {A} (m : B A) (h : exn → B A) : B A :=
  λ b, match m b with
       | (b', Raise e) => h e b'
       | r => r
       end.

Definition tell (ev : startup_event) : B unit :=
  λ b, (mkBoot (proc b) (startup_log b ++ [ev]), Ret ()).

(** Code of the running bot used while starting. *)
Definition liftB {A} (m : M A) : B A :=
  λ b, let (s', r) := m (proc b) in (mkBoot s' (startup_log b), r).

Definition set_available_images (imgs : list string) (s : state) : state :=
  mkState (history_manager s) (google_drive_manager s) imgs
          (current_send_interval s) (job_queue s) (disk s) (log s).

Definition set_google_drive_manager (g : option GoogleDriveManager) (s : state) : state :=
  mkState (history_manager s) g (available_images s)
          (current_send_interval s) (job_queue s) (disk s) (log s).

(** [load_images_from_local] *)
Definition load_images_from_local (h : host) (c : Settings.t) : B bool :=
  if falsy (Settings.IMAGES_PATH c)
     || negb (path_exists h (default "" (Settings.IMAGES_PATH c)))
  then tell LogImagesPathNotFound ;;- retB false
  else
    entries <-- (λ b, (b, iterdir h (default "" (Settings.IMAGES_PATH c)))) ;;
    let images :=
      map entry_path
          (List.filter (λ f, entry_is_file f && has_image_suffix (entry_name f)) entries) in
    liftB (modify (set_available_images images)) ;;-
    match images with
    | [] => tell LogNoImagesFound ;;- retB false
    | _ :: _ => tell (LogLoadedLocal (length images)) ;;- retB true
    end.

(** [GoogleDriveManager.__init__] *)
Definition GoogleDriveManager_init (h : host) (credentials_file : string)
    (folder_id : option string) : B GoogleDriveManager :=
  if negb (path_exists h credentials_file) then raiseB (OSError ENOENT)
  else
    tryB (match authenticate h with
          | None => tell LogDriveAuthenticated
          | Some e => raiseB e
          end)
         (λ e, tell (LogDriveAuthFailed e) ;;- raiseB e) ;;-
    retB (mkGoogleDriveManager []).

(** [GoogleDriveManager.load_images] on the object [self]: the object
    afterwards, the line it logs and its answer. *)
Definition load_images_method (h : host) (self : GoogleDriveManager)
    : GoogleDriveManager * startup_event * bool :=
  match drive_files h with
  | Ret files =>
      let images := List.filter (λ file, has_image_ending (snd file)) files in
      (mkGoogleDriveManager images, LogDriveListed (length images),
       negb (Nat.eqb (length images) 0))
  | Raise e => (self, LogDriveListFailed e, false)
  end.

(** [google_drive_manager.load_images()] on the global of [main.py] *)
Definition GoogleDriveManager_load_images (h : host) : B bool :=
  manager <-- liftB (get google_drive_manager) ;;
  match manager with
  | None => raiseB AttributeError
  | Some self =>
      let '(self', line, loaded) := load_images_method h self in
      liftB (modify (set_google_drive_manager (Some self'))) ;;-
      tell line ;;-
      retB loaded
  end.

(** [GoogleDriveManager.get_image_list] *)
Definition get_image_list (self : GoogleDriveManager) : list string :=
  map snd (images self).

(** [load_images_from_google_drive] *)
Definition load_images_from_google_drive (h : host) (c : Settings.t) : B bool :=
  tryB (manager <-- GoogleDriveManager_init h (Settings.GOOGLE_DRIVE_CREDENTIALS c)
                      (Settings.GOOGLE_DRIVE_FOLDER_ID c) ;;
        liftB (modify (set_google_drive_manager (Some manager))) ;;-
        loaded <-- GoogleDriveManager_load_images h ;;
        if negb loaded then tell LogFailedToLoadFromDrive ;;- retB false
        else
          manager <-- liftB (get google_drive_manager) ;;
          let images :=
            match manager with
            | Some manager => get_image_list manager
            | None => []
            end in
          liftB (modify (set_available_images images)) ;;-
          tell (LogLoadedFromDrive (length images)) ;;-
          retB true)
       (λ e, tell (LogErrorLoadingFromDrive e) ;;- retB false).

(** [load_images] *)
Definition load_images (h : host) (c : Settings.t) : B bool :=
  if String.eqb (Settings.IMAGE_SOURCE c) "google_drive"
  then load_images_from_google_drive h c
  else load_images_from_local h c.

(** [for error in errors: logger.error(...)] *)
Fixpoint log_errors (errors : list string) : B unit :=
  match errors with
  | [] => retB ()
  | error :: errors' => tell (LogConfigurationError error) ;;- log_errors errors'
  end.

(** [main], up to the call of [run_polling]. *)
Definition main (h : host) (c : Settings.t) : B unit :=
  tell LogStarting ;;-
  let '(valid, errors) := is_valid (path_exists h) c in
  if negb valid then
    tell LogConfigurationErrors ;;-
    log_errors errors
  else
    loaded <-- load_images h c ;;
    if negb loaded then tell LogFailedToLoadImages
    else
      let chat_id := channel_id (core c) in
      (λ b, (b, match build_application h with
                | None => Ret ()
                | Some e => Raise e
                end)) ;;-
      tell LogCommandHandlersRegistered ;;-
      liftB (setup_schedule chat_id) ;;-
      tell LogBotConnected ;;-
      tell LogBotRunning.

(** The process when [main.py] has been imported and [main] has not run
    yet; [hm] is the history manager built at import. *)
Definition imported (hm : HistoryManager) (d : option file_content) : boot :=
  mkBoot (mkState hm None [] 60 [] d []) [].

(** ** sync_to_gdrive.py *)

(** The log lines of the sync tool; the lines of [google_drive.py] go to
    the same log. *)
Inductive sync_event : Type :=
  | LogSyncStarting
  | LogLocalPathNotFound
  | LogDrive (line : startup_event)
  | LogNoNewImages
  | LogFoundNew (n : nat)
  | LogUploadFileNotFound (file_path : string)
  | LogUploaded (file_name : string)
  | LogUploadFailed (file_name : string) (e : exn)
  | LogUploadedCount (uploaded new : nat)
  | LogSyncLoopError (e : exn)
  | LogNextSync (interval : Z).

(** A [GoogleDriveSync] object with what it has done: its Drive manager,
    the names of the files it has created on Drive, oldest first, and
    its log. *)
Record GoogleDriveSync : Type := mkSync {
  gd_manager : GoogleDriveManager;
  created : list string;
  sync_log : list sync_event
}.

Definition sync_logger (line : sync_event) (self : GoogleDriveSync) : GoogleDriveSync :=
  mkSync (gd_manager self) (created self) (sync_log self ++ [line]).

(** [GoogleDriveSync.get_local_images] *)
Definition get_local_images (h : host) (local_path : string) (self : GoogleDriveSync)
    : GoogleDriveSync * result (list string) :=
  if negb (path_exists h local_path) then (sync_logger LogLocalPathNotFound self, Ret [])
  else
    match iterdir h local_path with
    | Raise e => (self, Raise e)
    | Ret entries =>
        (self,
         Ret (map entry_name
                (List.filter (λ f, entry_is_file f && has_image_suffix (entry_name f))
                             entries)))
    end.

(** [GoogleDriveSync.get_gdrive_images] *)
Definition get_gdrive_images (h : host) (self : GoogleDriveSync)
    : GoogleDriveSync * list string :=
  let '(manager, line, _) := load_images_method h (gd_manager self) in
  (mkSync manager (created self) (sync_log self ++ [LogDrive line]),
   get_image_list manager).

(** [GoogleDriveSync.upload_image] *)
Definition upload_image (h : host) (local_path file_name : string) (self : GoogleDriveSync)
    : GoogleDriveSync * bool :=
  let file_path := os_path_join local_path file_name in
  if negb (path_exists h file_path)
  then (sync_logger (LogUploadFileNotFound file_path) self, false)
  else
    match create_file h file_name with
    | None =>
        (mkSync (gd_manager self) (created self ++ [file_name])
                (sync_log self ++ [LogUploaded file_name]),
         true)
    | Some e => (sync_logger (LogUploadFailed file_name e) self, false)
    end.

(** The loop [for image in new_images] of [sync_once]. *)
Fixpoint upload_each (h : host) (local_path : string) (new_images : list string)
    (uploaded_count : nat) (self : GoogleDriveSync) : GoogleDriveSync * nat :=
  match new_images with
  | [] => (self, uploaded_count)
  | image :: new_images' =>
      let (self, uploaded) := upload_image h local_path image self in
      upload_each h local_path new_images'
                  (if uploaded then S uploaded_count else uploaded_count) self
  end.

(** [GoogleDriveSync.sync_once] *)
Definition sync_once (h : host) (local_path : string) (self : GoogleDriveSync)
    : GoogleDriveSync * result nat :=
  let self := sync_logger LogSyncStarting self in
  match get_local_images h local_path self with
  | (self, Raise e) => (self, Raise e)
  | (self, Ret local_images) =>
      let (self, gdrive_images) := get_gdrive_images h self in
      let new_images :=
        List.filter (λ img, negb (bool_decide (img ∈ gdrive_images))) local_images in
      match new_images with
      | [] => (sync_logger LogNoNewImages self, Ret 0%nat)
      | _ :: _ =>
          let self := sync_logger (LogFoundNew (length new_images)) self in
          let (self, uploaded_count) := upload_each h local_path new_images 0 self in
          (sync_logger (LogUploadedCount uploaded_count (length new_images)) self,
           Ret uploaded_count)
      end
  end.

(** The first rounds of [sync_loop], the machine and the Drive service
    answering as [hosts] in turn. *)
Fixpoint sync_loop (hosts : list host) (local_path : string) (interval : Z)
    (self : GoogleDriveSync) : GoogleDriveSync :=
  match hosts with
  | [] => self
  | h :: hosts' =>
      let self :=
        match sync_once h local_path self with
        | (self, Ret _) => self
        | (self, Raise e) => sync_logger (LogSyncLoopError e) self
        end in
      sync_loop hosts' local_path interval (sync_logger (LogNextSync interval) self)
  end.

(** ** check_config.py *)

(** [a // b]; [None] is [ZeroDivisionError]. *)
Definition floordiv (a b : Z) : option Z :=
  if (b =? 0)%Z then None else Some (a / b)%Z.

(** [enumerate(errors, start)] *)
Fixpoint enumerate {A} (start : Z) (l : list A) : list (Z * A) :=
  match l with
  | [] => []
  | x :: l' => (start, x) :: enumerate (start + 1) l'
  end.

(** What [check_config] prints, apart from the fixed text: the sends per
    day of a valid configuration, or the numbered issues. *)
Inductive check_report : Type :=
  | ReportValid (sends_per_day : Z)
  | ReportIssues (issues : list (Z * string)).

(** [check_config]: the report and the exit code; [None] is
    [ZeroDivisionError]. *)
Definition check_config (path_exists : string → bool) (c : Settings.t)
    : option (check_report * Z) :=
  let '(valid, errors) := is_valid path_exists c in
  if valid then
    match floordiv (Settings.END_HOUR c - Settings.START_HOUR c) (Settings.SEND_INTERVAL c) with
    | None => None
    | Some sends_per_day => Some (ReportValid sends_per_day, 0%Z)
    end
  else Some (ReportIssues (enumerate 1 errors), 1%Z).

(** ** Reading the states

    The durable record is read the way a new process reads it. *)

(** The set a new [HistoryManager] reads from the history file when the
    file can be opened. *)
Definition stored_history (s : state) : result (gset atom) :=
  snd (_load_history None s).

(** [s'] differs from [s] at most by its log. *)
Definition logs_only (s s' : state) : Prop :=
  history_manager s' = history_manager s ∧
  google_drive_manager s' = google_drive_manager s ∧
  available_images s' = available_images s ∧
  current_send_interval s' = current_send_interval s ∧
  job_queue s' = job_queue s ∧
  disk s' = disk s.

(** [s'] and [s] have the same pool, Drive manager, send interval and job
    queue: they differ at most by the history, its file and the log. *)
Definition same_setup (s s' : state) : Prop :=
  google_drive_manager s' = google_drive_manager s ∧
  available_images s' = available_images s ∧
  current_send_interval s' = current_send_interval s ∧
  job_queue s' = job_queue s.

(** Synchronous code that changes nothing but the log. *)
Definition quiet {A} (m : M A) : Prop := ∀ s, logs_only s (fst (m s)).

(** How often the log reports [image_name] as sent. *)
Definition times_sent (image_name : string) (s : state) : nat :=
  length (List.filter
            (λ l, match l with
                  | LogImageSent n => String.eqb n image_name
                  | _ => false
                  end)
            (log s)).

(** ** Scenarios *)

(** A process that has sent ["a.jpg"] and whose history file says so; the
    folder holds ["a.jpg"] and ["b.jpg"]. *)
Definition one_sent : state :=
  mkState (mkHistoryManager HISTORY_FILE {[AStr "a.jpg"]}) None
          ["a.jpg"; "b.jpg"] 60 []
          (Some (Complete (history_record {[AStr "a.jpg"]} "2024-05-01T10:00:00")))
          [].

(** Images in a local folder, working hours from 9 to 21. *)
Definition local_config : Config :=
  mkConfig "@pictures" "local" "./image_cache" 9 21.

(** A moment at which every call into the operating system succeeds. *)
Definition calm (current_hour : Z) : env :=
  mkEnv 0 "2024-05-01T11:00:00" current_hour None None None WriteOk None.

(** A network on which every request fails. *)
Definition network_down (rq : request) : result unit := Raise TelegramError.

(** A network on which every request succeeds. *)
Definition network_up (rq : request) : result unit := Ret ().

(** A process that has sent nothing yet; the folder holds ["a.jpg"]. *)
Definition nothing_sent : state :=
  mkState (mkHistoryManager HISTORY_FILE ∅) None ["a.jpg"] 60 [] None [].

(** The job [setup_schedule] registers in a fresh process. *)
Definition hourly_job : Job :=
  mkJob "repeating_image_send" 3600 60 (ChatName "@pictures").

(** A "send now" command and a scheduled tick, both about to run. *)
Definition send_now_and_tick : loop :=
  mkLoop nothing_sent
         [ Created (cmd_send_now local_config (calm 10));
           Created (scheduled_send local_config (calm 10) hourly_job) ].

(** Dispatches run one after the other, each to its end before the next
    starts, the [i]-th in the environment [evs !! i]: the state they
    leave and what each [send_image] answered. *)
Fixpoint dispatch_each (cfg : Config) (chat : chat_id) (answer : request → result unit)
    (evs : list env) (s : state) : state * list (result bool) :=
  match evs with
  | [] => (s, [])
  | ev :: evs' =>
      let (s1, r) := run answer (send_image cfg ev chat s) in
      let (s2, rs) := dispatch_each cfg chat answer evs' s1 in
      (s2, r :: rs)
  end.

(** A process whose pool is exhausted: the one image of the folder is in
    the history. *)
Definition all_sent : state :=
  mkState (mkHistoryManager HISTORY_FILE {[AStr "a.jpg"]}) None ["a.jpg"] 60 []
          (Some (Complete (history_record {[AStr "a.jpg"]} "2024-05-01T10:00:00")))
          [].

(** Settings for a local folder: hours 9 to 21, an interval of 2. *)
Definition local_settings : Settings.t :=
  Settings.mk (Some "123456:token") (Some "@pictures") "local" (Some "/srv/pictures")
              "credentials.json" None "./image_cache" 2 9 21.

(** A machine whose folder holds the images ["a.jpg"] and ["b.jpg"] and
    a text file, and a Drive folder that lists ["b.jpg"]; every call
    succeeds. *)
Definition folder_host : host :=
  mkHost (λ _, true)
         (λ _, Ret [ mkEntry "/srv/pictures/a.jpg" "a.jpg" true;
                     mkEntry "/srv/pictures/b.jpg" "b.jpg" true;
                     mkEntry "/srv/pictures/notes.txt" "notes.txt" true ])
         None
         (Ret [("id-b", "b.jpg")])
         (λ _, None)
         None.

(** A [GoogleDriveSync] object as its constructor leaves it. *)
Definition new_sync : GoogleDriveSync := mkSync (mkGoogleDriveManager []) [] [].

(** * Properties *)

(** ** History store *)

Section History.

Implicit Types (s : state) (S : gset atom) (x now : string) (wo : write_outcome).

Lemma hashables_atoms (l : list atom) : hashables (map JAtom l) = Some l.
Proof.
  induction l as [|a l IH]; simpl; [done|]. by rewrite IH.
Qed.

Lemma py_set_elements S : py_set (JList (map JAtom (elements S))) = Ret S.
Proof.
  simpl. rewrite hashables_atoms. f_equal. apply list_to_set_elements_L.
Qed.

(** What one rewrite of the history file leaves behind. *)
Lemma save_history_unfold now wo s :
  _save_history now wo s =
    (let S := sent_images (history_manager s) in
     match wo with
     | WriteOk =>
         add_log (LogHistorySaved (size S))
                 (set_disk (Some (Complete (history_record S now))) s)
     | OpenFails code => add_log (LogHistorySaveError (OSError code)) s
     | DumpFails code =>
         add_log (LogHistorySaveError (OSError code)) (set_disk (Some Torn) s)
     end, Ret ()).
Proof. by destruct wo. Qed.

Lemma add_image_unfold x now wo s :
  add_image x now wo s =
    (add_log (LogImageAdded x)
       (fst (_save_history now wo
          (set_sent_images (sent_images (history_manager s) ∪ {[AStr x]}) s))),
     Ret ()).
Proof.
  unfold add_image, bind, modify. rewrite save_history_unfold. by destruct wo.
Qed.

Lemma stored_history_complete s S now :
  disk s = Some (Complete (history_record S now)) → stored_history s = Ret S.
Proof.
  intros Hd. unfold stored_history, _load_history. rewrite Hd.
  unfold try_except, bind, attempt_os, attempt. simpl.
  rewrite hashables_atoms. simpl. by rewrite list_to_set_elements_L.
Qed.

Lemma stored_history_torn s : disk s = Some Torn → stored_history s = Ret ∅.
Proof.
  intros Hd. unfold stored_history, _load_history. by rewrite Hd.
Qed.

Lemma save_history_sent now wo s :
  sent_images (history_manager (fst (_save_history now wo s))) =
  sent_images (history_manager s).
Proof. rewrite save_history_unfold. by destruct wo. Qed.

Lemma add_image_sent x now wo s :
  sent_images (history_manager (fst (add_image x now wo s))) =
  sent_images (history_manager s) ∪ {[AStr x]}.
Proof.
  rewrite add_image_unfold. simpl.
  change (sent_images (history_manager (fst (_save_history now wo
            (set_sent_images (sent_images (history_manager s) ∪ {[AStr x]}) s)))) =
          sent_images (history_manager s) ∪ {[AStr x]}).
  by rewrite save_history_sent.
Qed.

Lemma add_image_stored x now s :
  stored_history (fst (add_image x now WriteOk s)) =
  Ret (sent_images (history_manager s) ∪ {[AStr x]}).
Proof.
  rewrite add_image_unfold, save_history_unfold. simpl.
  by apply stored_history_complete with (now := now).
Qed.






End History.

(** ** Selector *)

Section Selector.

Lemma get_unsent_images_spec (self : HistoryManager) (P : list string) (x : string) :
  x ∈ get_unsent_images self P ↔ x ∈ P ∧ AStr x ∉ sent_images self.
Proof.
  unfold get_unsent_images, is_sent.
  rewrite !list_elem_of_In, filter_In, negb_true_iff, bool_decide_eq_false. done.
Qed.

Lemma random_choice_elem {A} (rand : nat) (l : list A) :
  l ≠ [] → ∃ y, random_choice rand l = Some y ∧ y ∈ l.
Proof.
  intros Hl. unfold random_choice.
  destruct (lookup_lt_is_Some_2 l (Nat.modulo rand (length l))) as [y Hy].
  - apply Nat.mod_upper_bound. by destruct l.
  - exists y. split; [done|]. by eapply list_elem_of_lookup_2.
Qed.

Lemma get_random_image_some (ev : env) (s s1 : state) (y : string) :
  get_random_image ev s = (s1, Ret (Some y)) →
  y ∈ available_images s ∧ AStr y ∉ sent_images (history_manager s).
Proof.
  unfold get_random_image, bind, get. simpl.
  pose proof (get_unsent_images_spec (history_manager s) (available_images s)) as Hspec.
  destruct (get_unsent_images (history_manager s) (available_images s))
    as [|x0 unsent] eqn:Hun; [discriminate|].
  destruct (random_choice_elem (rand ev) (x0 :: unsent)) as (y' & -> & Hy); [done|].
  intros [= <- <-]. by apply Hspec.
Qed.

Lemma truthy_some (x : option string) (y : string) : truthy x = Some y → x = Some y.
Proof. unfold truthy. by destruct (falsy x). Qed.

(** C1. [get_random_image] answers [None] exactly when every id of the
    pool is in the history; when some id of the pool is not, it answers
    with an id of the pool that is not in the history. *)
Theorem get_random_image_spec (ev : env) (s : state) :
  let P := available_images s in
  let H := sent_images (history_manager s) in
  let r := snd (get_random_image ev s) in
  (r = Ret None ↔ ∀ x, x ∈ P → AStr x ∈ H) ∧
  ((∃ x, x ∈ P ∧ AStr x ∉ H) → ∃ y, r = Ret (Some y) ∧ y ∈ P ∧ AStr y ∉ H) ∧
  (∀ y, r = Ret (Some y) → y ∈ P ∧ AStr y ∉ H) ∧
  (∃ o, r = Ret o).
Proof.
  cbv zeta. unfold get_random_image, bind, get. simpl.
  pose proof (get_unsent_images_spec (history_manager s) (available_images s)) as Hspec.
  destruct (get_unsent_images (history_manager s) (available_images s))
    as [|x0 unsent] eqn:Hun.
  - simpl. split_and!.
    + split; [|done]. intros _ x Hx.
      destruct (decide (AStr x ∈ sent_images (history_manager s))) as [|Hn]; [done|].
      exfalso. eapply not_elem_of_nil, Hspec. eauto.
    + intros (x & Hx & Hn). exfalso. eapply not_elem_of_nil, Hspec. eauto.
    + discriminate.
    + by eexists.
  - destruct (random_choice_elem (rand ev) (x0 :: unsent)) as (y & -> & Hy); [done|].
    apply Hspec in Hy as [HyP HyH]. simpl. split_and!.
    + split; [discriminate|]. intros Hall. exfalso. eauto.
    + intros _. eauto.
    + by intros y' [= <-].
    + by eexists.
Qed.

End Selector.

(** ** Running coroutines *)

Section Run.

Context {A B : Type}.
Implicit Types (answer : request → result unit) (s : state).

Lemma run_bindC answer (c : coro A) (f : A → task B) :
  run answer (bindC c f) =
    match run answer c with
    | (s, Ret a) => run answer (f a s)
    | (s, Raise e) => (s, Raise e)
    end.
Proof.
  induction c as [s [a|e]|s rq k IH]; simpl; auto.
Qed.

Lemma run_catchC answer (c : coro A) (class : exn → bool) (h : exn → task A) :
  run answer (catchC c class h) =
    match run answer c with
    | (s, Raise e) => if class e then run answer (h e s) else (s, Raise e)
    | (s, Ret a) => (s, Ret a)
    end.
Proof.
  induction c as [s [a|e]|s rq k IH]; simpl; auto.
  by destruct (class e).
Qed.

Lemma run_sync answer (m : M A) s : run answer (sync m s) = m s.
Proof. unfold sync. by destruct (m s). Qed.

Lemma ends_normally_catchC (c : coro A) (class : exn → bool) (h : exn → task A) :
  (∀ e, class e = true) → (∀ e s, ends_normally (h e s)) →
  ends_normally (catchC c class h).
Proof.
  intros Hclass Hh.
  induction c as [s [a|e]|s rq k IH]; simpl.
  - done.
  - rewrite Hclass. apply Hh.
  - intros ans s'. apply IH.
Qed.

Lemma ends_normally_run answer (c : coro A) :
  ends_normally c → ∃ a, snd (run answer c) = Ret a.
Proof.
  induction c as [s [a|e]|s rq k IH]; simpl; [by eexists|done|].
  intros Hk. apply IH, Hk.
Qed.

End Run.

(** ** Code that only writes to the log *)

#[local] Instance logs_only_refl : Reflexive logs_only.
Proof. by intros s. Qed.

#[local] Instance logs_only_trans : Transitive logs_only.
Proof.
  intros s1 s2 s3 (?&?&?&?&?&?) (?&?&?&?&?&?).
  unfold logs_only. split_and!; congruence.
Qed.

Section Quiet.

Context {A B : Type}.

Lemma quiet_ret (a : A) : quiet (ret a).
Proof. by intros s. Qed.

Lemma quiet_raise (e : exn) : quiet (@raise A e).
Proof. by intros s. Qed.

Lemma quiet_get (f : state → A) : quiet (get f).
Proof. by intros s. Qed.

Lemma quiet_bind (m : M A) (f : A → M B) :
  quiet m → (∀ a, quiet (f a)) → quiet (bind m f).
Proof.
  intros Hm Hf s. unfold bind. specialize (Hm s).
  destruct (m s) as [s' [a|e]]; simpl in *; [|done].
  etrans; [exact Hm|apply Hf].
Qed.

Lemma quiet_try_except (m : M A) (class : exn → bool) (h : exn → M A) :
  quiet m → (∀ e, quiet (h e)) → quiet (try_except m class h).
Proof.
  intros Hm Hh s. unfold try_except. specialize (Hm s).
  destruct (m s) as [s' [a|e]]; simpl in *; [done|].
  destruct (class e); [|done].
  etrans; [exact Hm|apply Hh].
Qed.

End Quiet.

Lemma quiet_logger (ev : log_event) : quiet (logger ev).
Proof. by intros s. Qed.

Lemma quiet_attempt (o : option exn) : quiet (attempt o).
Proof. destruct o; by intros s. Qed.

Lemma quiet_attempt_os (o : option errno) : quiet (attempt_os o).
Proof. apply quiet_attempt. Qed.

Create HintDb quiet.
#[local] Hint Resolve quiet_ret quiet_raise quiet_get quiet_logger
  quiet_attempt quiet_attempt_os : quiet.
#[local] Hint Extern 2 (quiet (bind _ _)) => apply quiet_bind; [|intros] : quiet.
#[local] Hint Extern 2 (quiet (try_except _ _ _)) =>
  apply quiet_try_except; [|intros] : quiet.
#[local] Hint Extern 3 (quiet (match ?x with _ => _ end)) => destruct x : quiet.

Lemma quiet_get_random_image ev : quiet (get_random_image ev).
Proof. unfold get_random_image. auto 10 with quiet. Qed.

Lemma quiet_download_image ev file_id file_name output_path :
  quiet (download_image ev file_id file_name output_path).
Proof. unfold download_image. auto 10 with quiet. Qed.

Lemma quiet_download_image_from_google_drive cfg ev image_name :
  quiet (download_image_from_google_drive cfg ev image_name).
Proof.
  unfold download_image_from_google_drive.
  pose proof quiet_download_image. auto 12 with quiet.
Qed.

(** ** Dispatch *)

Section Dispatch.

Implicit Types (cfg : Config) (ev : env) (chat : chat_id) (s : state)
  (answer : request → result unit).

(** The three [except] clauses of [send_image] all log and answer
    [False]. *)
Lemma run_send_image_handler answer (e : exn) s :
  ∃ l, run answer
      ((if is_TelegramError e then sync (logger (LogTelegramError e)) >>> retT false
        else if is_FileNotFoundError e then sync (logger (LogFileNotFound e)) >>> retT false
        else sync (logger (LogUnexpectedError e)) >>> retT false) s)
    = (add_log l s, Ret false).
Proof.
  destruct (is_TelegramError e); [by eexists|].
  destruct (is_FileNotFoundError e); by eexists.
Qed.

Lemma run_deliver_fails cfg ev chat image_name image_path s answer :
  (∀ c path, ∃ e, answer (SendPhoto c path) = Raise e) →
  ∃ e, run answer (deliver cfg ev chat image_name image_path s) = (s, Raise e).
Proof.
  intros Hfail. unfold deliver, bindT.
  rewrite run_bindC, run_sync.
  destruct (open_outcome ev) as [code|]; simpl; [by eexists|].
  destruct (Hfail chat image_path) as [e He]. rewrite He. by eexists.
Qed.

Lemma logs_only_add_log (l : log_event) s : logs_only s (add_log l s).
Proof. done. Qed.

(** C2. When the delivery fails, the dispatch leaves the history set and
    the history file as they were ([add_image] is not reached), and
    answers [False]. *)
Theorem send_image_delivery_failure cfg ev chat s answer :
  (∀ c path, ∃ e, answer (SendPhoto c path) = Raise e) →
  let s' := fst (run answer (send_image cfg ev chat s)) in
  history_manager s' = history_manager s ∧
  disk s' = disk s ∧
  snd (run answer (send_image cfg ev chat s)) = Ret false.
Proof.
  intros Hfail. cbv zeta.
  cut (∃ s', run answer (send_image cfg ev chat s) = (s', Ret false) ∧ logs_only s s').
  { intros (s' & -> & (?&?&?&?&?&?)). done. }
  unfold send_image, try_exceptT. rewrite run_catchC.
  unfold bindT at 1. rewrite run_bindC, run_sync.
  pose proof (quiet_get_random_image ev s) as Hsel.
  destruct (get_random_image ev s) as [s1 [image_name|e]]; simpl in Hsel.
  2:{ cbv beta iota delta [is_Exception].
      destruct (run_send_image_handler answer e s1) as [l Hl].
      eexists. split; [exact Hl|]. etrans; [exact Hsel|apply logs_only_add_log]. }
  destruct (truthy image_name) as [name|].
  2:{ simpl. eexists. split; [done|]. etrans; [exact Hsel|apply logs_only_add_log]. }
  assert (Hdel : ∀ path s2, logs_only s s2 →
    ∃ s',
      match run answer (deliver cfg ev chat name path s2) with
      | (s3, Ret a) => (s3, Ret a)
      | (s3, Raise e) =>
          if is_Exception e then
            run answer
              ((if is_TelegramError e then sync (logger (LogTelegramError e)) >>> retT false
                else if is_FileNotFoundError e then sync (logger (LogFileNotFound e)) >>> retT false
                else sync (logger (LogUnexpectedError e)) >>> retT false) s3)
          else (s3, Raise e)
      end = (s', Ret false) ∧ logs_only s s').
  { intros path s2 Hs2.
    destruct (run_deliver_fails cfg ev chat name path s2 answer Hfail) as [e ->].
    cbv beta iota delta [is_Exception].
    destruct (run_send_image_handler answer e s2) as [l Hl].
    eexists. split; [exact Hl|]. etrans; [exact Hs2|apply logs_only_add_log]. }
  destruct (String.eqb (IMAGE_SOURCE cfg) "google_drive").
  - unfold bindT. rewrite run_bindC, run_sync.
    pose proof (quiet_download_image_from_google_drive cfg ev name s1) as Hdl.
    destruct (download_image_from_google_drive cfg ev name s1) as [s2 [image_path|e]];
      simpl in Hdl.
    2:{ cbv beta iota delta [is_Exception].
        destruct (run_send_image_handler answer e s2) as [l Hl].
        eexists. split; [exact Hl|].
        etrans; [exact Hsel|]. etrans; [exact Hdl|apply logs_only_add_log]. }
    destruct (truthy image_path) as [path|].
    + apply Hdel. by etrans.
    + simpl. eexists. split; [done|].
      etrans; [exact Hsel|]. etrans; [exact Hdl|apply logs_only_add_log].
  - by apply Hdel.
Qed.

(** The delivery fails for the process of [one_sent]: the history is
    untouched. *)
Lemma send_image_delivery_failure_witness :
  let s' := fst (run network_down (send_image local_config (calm 10) (ChatName "@pictures") one_sent)) in
  history_manager s' = history_manager one_sent ∧
  disk s' = disk one_sent ∧
  snd (run network_down (send_image local_config (calm 10) (ChatName "@pictures") one_sent)) = Ret false.
Proof.
  apply (send_image_delivery_failure local_config (calm 10) (ChatName "@pictures")
           one_sent network_down).
  intros c path. by exists TelegramError.
Defined.

End Dispatch.

(** ** Scheduler *)

Section Scheduler.

Implicit Types (cfg : Config) (ev : env) (job : Job) (s : state)
  (answer : request → result unit) (send_action : chat_id → task bool).

Lemma outside_working_hours_spec cfg (h : Z) :
  outside_working_hours cfg h = negb (bool_decide (START_HOUR cfg ≤ h < END_HOUR cfg)).
Proof.
  unfold outside_working_hours. case_bool_decide as Hd; simpl.
  - apply orb_false_iff. split; [apply Z.ltb_ge|rewrite Z.geb_leb; apply Z.leb_gt]; lia.
  - apply orb_true_iff.
    destruct (Z.ltb_spec h (START_HOUR cfg)); [by left|right].
    rewrite Z.geb_leb. apply Z.leb_le. lia.
Qed.

(** C6. The tick runs the send action, on the chat of the job, exactly
    when [START_HOUR <= hour < END_HOUR]; otherwise it logs the skip and
    ends, whatever the send action is.  With hours 9 to 21, the ticks at
    8 and at 21 are skipped, those at 9 and at 20 are not. *)
Theorem scheduled_send_gate send_action cfg ev job s answer :
  run answer (scheduled_send_with send_action cfg ev job s) =
    (if bool_decide (START_HOUR cfg ≤ hour ev < END_HOUR cfg) then
       match run answer (send_action (job_data job) (add_log LogExecutingScheduledSend s)) with
       | (s1, Ret _) => (s1, Ret ())
       | (s1, Raise e) => (add_log (LogScheduledSendError e) s1, Ret ())
       end
     else (add_log LogOutsideWorkingHours s, Ret ())) ∧
  outside_working_hours local_config 8 = true ∧
  outside_working_hours local_config 21 = true ∧
  outside_working_hours local_config 9 = false ∧
  outside_working_hours local_config 20 = false.
Proof.
  split; [|done].
  unfold scheduled_send_with, try_exceptT. rewrite run_catchC.
  rewrite outside_working_hours_spec.
  destruct (bool_decide (START_HOUR cfg ≤ hour ev < END_HOUR cfg)); simpl; [|done].
  unfold bindT. rewrite run_bindC. simpl. rewrite run_bindC.
  by destruct (run answer (send_action (job_data job) (add_log LogExecutingScheduledSend s)))
    as [s1 [b|e]].
Qed.

(** C8. The tick handler never ends with an exception, whatever the
    send action does (answer [True], answer [False], or raise), whatever
    answers its requests get and whatever else runs while it waits; run
    alone, it returns [None]. *)
Theorem scheduled_send_returns send_action cfg ev job s :
  ends_normally (scheduled_send_with send_action cfg ev job s) ∧
  ∀ answer, snd (run answer (scheduled_send_with send_action cfg ev job s)) = Ret ().
Proof.
  assert (Hend : ends_normally (scheduled_send_with send_action cfg ev job s)).
  { unfold scheduled_send_with, try_exceptT.
    apply ends_normally_catchC; done. }
  split; [exact Hend|].
  intros answer. destruct (ends_normally_run answer _ Hend) as [[] ->]. done.
Qed.

End Scheduler.

(** ** Dispatches on the event loop *)

Section Loop.
Implicit Types (cfg : Config) (ev : env) (chat : chat_id) (s : state).

Lemma send_image_handler_done (e : exn) s :
  ∃ l,
    (if is_TelegramError e then sync (logger (LogTelegramError e)) >>> retT false
     else if is_FileNotFoundError e then sync (logger (LogFileNotFound e)) >>> retT false
     else sync (logger (LogUnexpectedError e)) >>> retT false) s
    = Done (add_log l s) (Ret false).
Proof.
  destruct (is_TelegramError e); [by eexists|].
  destruct (is_FileNotFoundError e); by eexists.
Qed.

Lemma deliver_steps cfg ev chat image_name image_path s :
    match catchC (deliver cfg ev chat image_name image_path s) is_Exception
      (λ e, if is_TelegramError e then sync (logger (LogTelegramError e)) >>> retT false
          else if is_FileNotFoundError e then sync (logger (LogFileNotFound e)) >>> retT false
          else sync (logger (LogUnexpectedError e)) >>> retT false) with
    | Done s' r => logs_only s s' ∧ r = Ret false
    | Await s' rq k =>
        s' = s ∧ rq = SendPhoto chat image_path ∧
        ∀ ans s2, ∃ s3 b,
          k ans s2 = Done s3 (Ret b) ∧
          match ans with
          | Ret _ =>
              b = true ∧
              (sent_images (history_manager s3) =
                 sent_images (history_manager s2) ∪ {[AStr image_name]})
          | Raise _ => b = false ∧ logs_only s2 s3
          end
    end.
Proof.
  unfold deliver, bindT, sync.
  destruct (open_outcome ev) as [code|]; simpl.
  - destruct code; by split.
  - split_and!; [done..|]. intros [[]|e] s2.
    + simpl. rewrite add_image_unfold, save_history_unfold. simpl.
      destruct (String.eqb (IMAGE_SOURCE cfg) "google_drive"), (remove_outcome ev),
        (save_outcome ev); simpl; by eexists _, _.
    + simpl. destruct (is_TelegramError e); [by eexists _, _|].
      destruct (is_FileNotFoundError e); by eexists _, _.
Qed.



End Loop.

(** ** Changing the interval *)

Section Interval.

Implicit Types (cfg : Config) (ev : env) (chat : chat_id) (s : state)
  (answer : request → result unit).

Lemma interval_lookup_cases (text : string) (minutes : Z) :
  interval_lookup interval_map text = Some minutes →
  (text = "15 мин" ∧ minutes = 15) ∨ (text = "30 мин" ∧ minutes = 30) ∨
  (text = "45 мин" ∧ minutes = 45) ∨ (text = "1 час" ∧ minutes = 60).
Proof.
  unfold interval_map. cbn [interval_lookup].
  repeat match goal with
         | |- context [String.eqb text ?k] =>
             destruct (String.eqb_spec text k) as [->|_];
             [intros [= <-]; naive_solver|]
         end.
  discriminate.
Qed.

(** The message handler, on an interval button: the global is set, the
    confirmation is sent, and the job queue is left as it is. *)
Lemma handle_message_interval cfg ev text minutes s answer :
  interval_lookup interval_map text = Some minutes →
  let s' := fst (run answer (handle_message cfg ev text s)) in
  current_send_interval s' = minutes ∧ job_queue s' = job_queue s.
Proof.
  intros Hl. cbv zeta.
  destruct (interval_lookup_cases text minutes Hl) as [[-> ->]|[[-> ->]|[[-> ->]|[-> ->]]]];
    vm_compute; by destruct (answer _).
Qed.

(** C4 on the code.  After [setup_schedule], pressing an interval button
    sets [current_send_interval] to the chosen minutes, but the job that
    [setup_schedule] registered is still the only one and keeps the
    interval it was registered with: every later tick comes that many
    seconds after the one before, not the chosen number of minutes. *)
Theorem interval_change_keeps_schedule cfg ev chat text minutes s answer :
  interval_lookup interval_map text = Some minutes →
  let old := current_send_interval s in
  let s1 := fst (setup_schedule chat s) in
  let s2 := fst (run answer (handle_message cfg ev text s1)) in
  let job := mkJob "repeating_image_send" (old * 60) 60 chat in
  current_send_interval s2 = minutes ∧
  job_queue s2 = (job_queue s ++ [job])%list ∧
  ∀ k, fire_time job (S k) - fire_time job k = old * 60.
Proof.
  intros Hl. cbv zeta.
  destruct (handle_message_interval cfg ev text minutes (fst (setup_schedule chat s))
              answer Hl) as [H1 H2].
  split_and!; [done|by rewrite H2|].
  intros k. unfold fire_time. simpl job_first. simpl job_interval. lia.
Qed.

(** The interval is changed from 60 to 15 minutes in a fresh process:
    the ticks stay 3600 seconds apart. *)
Lemma interval_change_keeps_schedule_witness :
  let s1 := fst (setup_schedule (ChatName "@pictures") nothing_sent) in
  let s2 := fst (run network_up (handle_message local_config (calm 10) "15 мин" s1)) in
  current_send_interval s2 = 15 ∧
  job_queue s2 = [hourly_job] ∧
  ∀ k, fire_time hourly_job (S k) - fire_time hourly_job k = 3600.
Proof.
  apply (interval_change_keeps_schedule local_config (calm 10) (ChatName "@pictures")
           "15 мин" 15 nothing_sent network_up).
  reflexivity.
Defined.

End Interval.

(** * Further properties of the code *)

(** ** Loading the history file *)

Section Loading.

Implicit Types (s : state) (S : gset atom) (x now : string) (wo : write_outcome)
  (rd : option errno).

Lemma quiet_load_history rd : quiet (_load_history rd).
Proof.
  intros s. unfold _load_history.
  destruct (disk s) as [c|] eqn:Hd; [|done].
  unfold try_except, bind, attempt_os, attempt.
  destruct rd as [code|]; simpl; [done|].
  destruct (json_load c) as [data|e]; simpl.
  - destruct (match data with
              | JDict kv => py_set (dict_get kv "images" (JList []))
              | _ => py_set data
              end) as [imgs|e]; simpl; [done|].
    by destruct (is_JSONDecodeError e || is_IOError e).
  - by destruct (is_JSONDecodeError e || is_IOError e).
Qed.


(** X2. A history file in the old format, a bare list of ids, loads as
    the set of those ids (an id listed twice is held once). *)
Theorem load_history_old_format (ids : list atom) s :
  snd (_load_history None (set_disk (Some (Complete (JList (map JAtom ids)))) s)) =
    Ret (list_to_set ids) ∧
  ∀ a, a ∈ (list_to_set ids : gset atom) ↔ a ∈ ids.
Proof.
  split; [|intros a; apply elem_of_list_to_set].
  unfold _load_history, try_except, bind, attempt_os, attempt. simpl.
  by rewrite hashables_atoms.
Qed.

Lemma dict_get_missing (kv : list (string * json)) (key : string) (default : json) :
  (∀ v, (key, v) ∉ kv) → dict_get kv key default = default.
Proof.
  induction kv as [|[k v] kv IH]; simpl; [done|]. intros Hno.
  destruct (String.eqb_spec k key) as [->|_].
  - exfalso. apply (Hno v). left.
  - apply IH. intros v' Hin. apply (Hno v'). by right.
Qed.

(** X3. A history file that holds a dictionary without an ["images"]
    entry loads as the empty history. *)
Theorem load_history_no_images_key (kv : list (string * json)) s :
  (∀ v, ("images", v) ∉ kv) →
  snd (_load_history None (set_disk (Some (Complete (JDict kv))) s)) = Ret ∅.
Proof.
  intros Hno.
  unfold _load_history, try_except, bind, attempt_os, attempt. simpl.
  by rewrite dict_get_missing.
Qed.

(** A record that lost its id list. *)
Lemma load_history_no_images_key_witness :
  (∀ v, ("images", v) ∉ [("total_count", JAtom (AInt 3))]) ∧
  snd (_load_history None
         (set_disk (Some (Complete (JDict [("total_count", JAtom (AInt 3))]))) nothing_sent))
    = Ret ∅.
Proof.
  assert (Hno : ∀ v, ("images", v) ∉ [("total_count", JAtom (AInt 3))]).
  { intros v Hin. apply list_elem_of_singleton in Hin. discriminate. }
  split; [exact Hno|].
  exact (load_history_no_images_key [("total_count", JAtom (AInt 3))] nothing_sent Hno).
Defined.

(** X4. A history file that parses but whose content cannot be made a
    set is fatal to the loader: a document that is a number or [null], a
    dictionary whose ["images"] entry is a number, or a list with a list
    among its entries makes [_load_history], and with it the constructor,
    raise [TypeError]. *)
Theorem load_history_type_error (n : Z) (ids : list atom) (inner after : list json)
    (kv : list (string * json)) s :
  let raises (doc : json) :=
    snd (_load_history None (set_disk (Some (Complete doc)) s)) = Raise TypeError ∧
    snd (HistoryManager_init None (set_disk (Some (Complete doc)) s)) = Raise TypeError in
  raises (JAtom (AInt n)) ∧
  raises (JAtom ANone) ∧
  raises (JDict (("images", JAtom (AInt n)) :: kv)) ∧
  raises (JList (map JAtom ids ++ JList inner :: after)).
Proof.
  cbv zeta.
  assert (Hnested : ∀ l : list atom,
            hashables (map JAtom l ++ JList inner :: after) = None).
  { induction l as [|a l IH]; simpl; [done|]. by rewrite IH. }
  split_and!; try done;
    unfold HistoryManager_init, _load_history, try_except, bind, attempt_os, attempt;
    simpl; by rewrite Hnested.
Qed.

End Loading.

(** ** Resetting, saving and querying the history *)

Section Store.

Implicit Types (s : state) (S : gset atom) (x y now : string) (wo : write_outcome)
  (P : list string).

Lemma get_unsent_images_empty (self : HistoryManager) P :
  sent_images self = ∅ → get_unsent_images self P = P.
Proof.
  intros He. unfold get_unsent_images, is_sent. rewrite He.
  induction P as [|p P IH]; simpl; [done|].
  rewrite bool_decide_eq_false_2 by apply not_elem_of_empty. simpl. by rewrite IH.
Qed.

Lemma reset_history_unfold now wo s :
  reset_history now wo s =
    (add_log (LogHistoryReset (size (sent_images (history_manager s))))
       (fst (_save_history now wo (set_sent_images ∅ s))),
     Ret (size (sent_images (history_manager s)))).
Proof.
  unfold reset_history, bind, get, modify. simpl.
  rewrite save_history_unfold. by destruct wo.
Qed.

(** X5. [reset_history] answers the number of ids it clears and leaves
    the set empty, so every id of any pool is unsent again; a completed
    write makes a new process start from the empty history too. *)
Theorem reset_history_spec s now wo P :
  let s' := fst (reset_history now wo s) in
  snd (reset_history now wo s) = Ret (size (sent_images (history_manager s))) ∧
  sent_images (history_manager s') = ∅ ∧
  get_unsent_images (history_manager s') P = P ∧
  (wo = WriteOk → stored_history s' = Ret ∅).
Proof.
  cbv zeta. rewrite reset_history_unfold. simpl.
  assert (Hempty : sent_images (history_manager
            (fst (_save_history now wo (set_sent_images ∅ s)))) = ∅)
    by apply save_history_sent.
  split_and!; [done|exact Hempty|by apply get_unsent_images_empty|].
  intros ->. rewrite save_history_unfold.
  by apply stored_history_complete with (now := now).
Qed.

(** X6. The record a completed [_save_history] leaves in the file lists
    exactly the ids of the in-memory set, each once, and its
    [total_count] is the length of that list. *)
Theorem save_history_record s now :
  let s' := fst (_save_history now WriteOk s) in
  ∃ ids : list atom,
    disk s' = Some (Complete (JDict
      [ ("images", JList (map JAtom ids));
        ("last_updated", JAtom (AStr now));
        ("total_count", JAtom (AInt (Z.of_nat (length ids)))) ])) ∧
    NoDup ids ∧
    ∀ a, a ∈ ids ↔ a ∈ sent_images (history_manager s).
Proof.
  cbv zeta. rewrite save_history_unfold. simpl.
  exists (elements (sent_images (history_manager s))). split_and!.
  - done.
  - apply NoDup_elements.
  - intros a. apply elem_of_elements.
Qed.

Lemma add_image_unsent_filter s x now wo P :
  get_unsent_images (history_manager (fst (add_image x now wo s))) P =
    List.filter (λ y, negb (String.eqb y x))
                (get_unsent_images (history_manager s) P).
Proof.
  unfold get_unsent_images, is_sent. rewrite add_image_sent.
  induction P as [|p P IH]; simpl; [done|].
  destruct (String.eqb_spec p x) as [->|Hne].
  - rewrite bool_decide_eq_true_2
      by (apply elem_of_union_r, elem_of_singleton; done).
    simpl. rewrite IH.
    case_bool_decide; simpl; [done|]. by rewrite String.eqb_refl.
  - assert (Hiff : AStr p ∈ sent_images (history_manager s) ∪ {[AStr x]} ↔
                   AStr p ∈ sent_images (history_manager s)).
    { rewrite elem_of_union, elem_of_singleton. split; [|tauto].
      intros [?|[= ?]]; [done|congruence]. }
    rewrite (bool_decide_ext _ _ Hiff).
    case_bool_decide; simpl; [done|].
    destruct (String.eqb_spec p x); [congruence|]. simpl. by rewrite IH.
Qed.

(** X7. After [add_image x], [get_unsent_images] leaves out [x] and
    answers for every other id as before: the unsent list of any pool is
    the old one without the entries equal to [x]. *)
Theorem add_image_unsent s x now wo P :
  get_unsent_images (history_manager (fst (add_image x now wo s))) P =
    List.filter (λ y, negb (String.eqb y x))
                (get_unsent_images (history_manager s) P).
Proof. apply add_image_unsent_filter. Qed.



End Store.

(** ** Dispatches that stop before the delivery *)

Section BeforeDelivery.

Implicit Types (cfg : Config) (ev : env) (chat : chat_id) (s : state)
  (answer : request → result unit).

(** What [download_image_from_google_drive] answers, by the outcomes of
    its steps. *)
Lemma download_image_from_google_drive_cases cfg ev image_name s :
  ∃ s',
    download_image_from_google_drive cfg ev image_name s =
      (s', Ret match makedirs_outcome ev, google_drive_manager s with
               | None, Some manager =>
                   match get_image_by_name (images manager) image_name with
                   | Some _ =>
                       match download_outcome ev with
                       | None => Some (os_path_join (GOOGLE_DRIVE_CACHE_DIR cfg) image_name)
                       | Some _ => None
                       end
                   | None => None
                   end
               | _, _ => None
               end) ∧
    logs_only s s'.
Proof.
  unfold download_image_from_google_drive, try_except, bind, attempt_os, attempt, get.
  destruct (makedirs_outcome ev) as [code|]; simpl; [by eexists|].
  destruct (google_drive_manager s) as [manager|]; simpl; [|by eexists].
  destruct (get_image_by_name (images manager) image_name) as [info|]; simpl; [|by eexists].
  unfold download_image, try_except, bind, attempt.
  destruct (download_outcome ev) as [e|]; simpl; by eexists.
Qed.

(** X10. [download_image_from_google_drive] never raises and changes
    nothing but the log.  It answers the path of the image in the cache
    directory exactly when the directory could be made, the Drive manager
    exists, the name is one of the folder and the transfer succeeded; in
    every other case it answers [None]. *)
Theorem download_image_from_google_drive_spec cfg ev image_name s :
  ∃ s' r,
    download_image_from_google_drive cfg ev image_name s = (s', Ret r) ∧
    logs_only s s' ∧
    (∀ path, r = Some path ↔
       makedirs_outcome ev = None ∧
       download_outcome ev = None ∧
       path = os_path_join (GOOGLE_DRIVE_CACHE_DIR cfg) image_name ∧
       ∃ manager info,
         google_drive_manager s = Some manager ∧
         get_image_by_name (images manager) image_name = Some info).
Proof.
  destruct (download_image_from_google_drive_cases cfg ev image_name s) as (s' & -> & Hq).
  eexists _, _. split_and!; [done..|]. intros path.
  destruct (makedirs_outcome ev) as [code|].
  { split; [done|]. by intros (? & _). }
  destruct (google_drive_manager s) as [manager|].
  2:{ split; [done|]. by intros (_ & _ & _ & ? & ? & ? & _). }
  destruct (get_image_by_name (images manager) image_name) as [info|] eqn:Hinfo.
  2:{ split; [done|]. intros (_ & _ & _ & m & i & [= <-] & Hi). congruence. }
  destruct (download_outcome ev) as [e|].
  { split; [done|]. by intros (_ & ? & _). }
  split.
  - intros [= <-]. split_and!; [done..|]. by exists manager, info.
  - by intros (_ & _ & -> & _).
Qed.

Lemma get_random_image_exhausted ev s :
  (∀ x, x ∈ available_images s → AStr x ∈ sent_images (history_manager s)) →
  ∃ s', get_random_image ev s = (s', Ret None) ∧ logs_only s s'.
Proof.
  intros Hall. unfold get_random_image, bind, get. simpl.
  pose proof (get_unsent_images_spec (history_manager s) (available_images s)) as Hspec.
  destruct (get_unsent_images (history_manager s) (available_images s)) as [|x0 unsent].
  - by eexists.
  - exfalso. destruct (Hspec x0) as [[HP HH] _]; [left|]. by apply HH, Hall.
Qed.

Lemma deliver_open_fails cfg ev chat image_name image_path s code :
  open_outcome ev = Some code →
  ∃ l,
    catchC (deliver cfg ev chat image_name image_path s) is_Exception
      (λ e, if is_TelegramError e then sync (logger (LogTelegramError e)) >>> retT false
            else if is_FileNotFoundError e then sync (logger (LogFileNotFound e)) >>> retT false
            else sync (logger (LogUnexpectedError e)) >>> retT false)
    = Done (add_log l s) (Ret false).
Proof.
  intros Ho. unfold deliver, bindT, sync. rewrite Ho. simpl.
  destruct code; by eexists.
Qed.

(** X11. A dispatch that cannot get as far as the delivery asks nothing
    of the network, answers [False] and changes nothing but the log.
    That is so when the pool is exhausted, when the image file cannot be
    opened, and, with Drive as the source, when the cache directory
    cannot be made, the Drive manager is missing or the transfer fails. *)
Theorem send_image_stops_before_delivery cfg ev chat s :
  ((∀ x, x ∈ available_images s → AStr x ∈ sent_images (history_manager s)) ∨
   is_Some (open_outcome ev) ∨
   (String.eqb (IMAGE_SOURCE cfg) "google_drive" = true ∧
    (is_Some (makedirs_outcome ev) ∨ is_Some (download_outcome ev) ∨
     google_drive_manager s = None))) →
  ∃ s', send_image cfg ev chat s = Done s' (Ret false) ∧ logs_only s s'.
Proof.
  intros Hstop.
  unfold send_image, try_exceptT, bindT at 1, sync at 1.
  pose proof (quiet_get_random_image ev s) as Hsel.
  pose proof (get_random_image_some ev s) as Hsome.
  pose proof (get_random_image_exhausted ev s) as Hex.
  destruct (get_random_image ev s) as [s1 [image_name|e]]; simpl in Hsel.
  2:{ cbn [bindC catchC is_Exception].
      destruct (send_image_handler_done e s1) as [l ->].
      eexists. split; [done|]. etrans; [exact Hsel|apply logs_only_add_log]. }
  cbn [bindC].
  destruct (truthy image_name) as [name|] eqn:Hname.
  2:{ simpl. eexists. split; [done|]. etrans; [exact Hsel|apply logs_only_add_log]. }
  apply truthy_some in Hname as ->.
  destruct (Hsome s1 name eq_refl) as [HP HH].
  assert (Hdel : ∀ path s2, logs_only s s2 → is_Some (open_outcome ev) →
    ∃ s',
      catchC (deliver cfg ev chat name path s2) is_Exception
        (λ e, if is_TelegramError e then sync (logger (LogTelegramError e)) >>> retT false
              else if is_FileNotFoundError e then sync (logger (LogFileNotFound e)) >>> retT false
              else sync (logger (LogUnexpectedError e)) >>> retT false)
      = Done s' (Ret false) ∧ logs_only s s').
  { intros path s2 Hs2 [code Ho].
    destruct (deliver_open_fails cfg ev chat name path s2 code Ho) as [l ->].
    eexists. split; [done|]. etrans; [exact Hs2|apply logs_only_add_log]. }
  destruct (String.eqb (IMAGE_SOURCE cfg) "google_drive") eqn:Hsrc.
  - unfold bindT at 1, sync at 1.
    destruct (download_image_from_google_drive_cases cfg ev name s1) as (s2 & -> & Hdl).
    assert (Hgm : google_drive_manager s1 = google_drive_manager s) by apply Hsel.
    rewrite Hgm. cbn [bindC].
    destruct Hstop as [Hall|[Hopen|[_ Hdrive]]].
    + exfalso. by apply HH, Hall.
    + destruct (truthy _) as [path|].
      * apply Hdel; [by etrans|done].
      * simpl. eexists. split; [done|].
        etrans; [exact Hsel|]. etrans; [exact Hdl|apply logs_only_add_log].
    + assert (Hnone : match makedirs_outcome ev, google_drive_manager s with
               | None, Some manager =>
                   match get_image_by_name (images manager) name with
                   | Some _ =>
                       match download_outcome ev with
                       | None => Some (os_path_join (GOOGLE_DRIVE_CACHE_DIR cfg) name)
                       | Some _ => None
                       end
                   | None => None
                   end
               | _, _ => None
               end = None).
      { destruct Hdrive as [[c Hc]|[[e He]|Hg]].
        - by rewrite Hc.
        - rewrite He.
          destruct (makedirs_outcome ev), (google_drive_manager s) as [g|]; try done.
          by destruct (get_image_by_name (images g) name).
        - rewrite Hg. by destruct (makedirs_outcome ev). }
      rewrite Hnone. simpl. eexists. split; [done|].
      etrans; [exact Hsel|]. etrans; [exact Hdl|apply logs_only_add_log].
  - destruct Hstop as [Hall|[Hopen|[? _]]]; [|by apply Hdel|done].
    exfalso. by apply HH, Hall.
Qed.

(** The pool of [all_sent] is exhausted. *)
Lemma send_image_stops_before_delivery_witness :
  ∃ s', send_image local_config (calm 10) (ChatName "@pictures") all_sent
          = Done s' (Ret false) ∧ logs_only all_sent s'.
Proof.
  apply (send_image_stops_before_delivery local_config (calm 10) (ChatName "@pictures") all_sent).
  left. intros x Hx. apply list_elem_of_singleton in Hx as ->.
  cbn [all_sent history_manager sent_images]. apply elem_of_singleton. done.
Defined.

End BeforeDelivery.

(** ** Dispatches one after the other *)

Section Exhaust.
Implicit Types (cfg : Config) (ev : env) (chat : chat_id) (s : state)
  (answer : request → result unit).

Lemma run_send_image_local cfg ev chat s answer :
  String.eqb (IMAGE_SOURCE cfg) "google_drive" = false →
  open_outcome ev = None →
  (∀ path, answer (SendPhoto chat path) = Ret ()) →
  "" ∉ available_images s →
  get_unsent_images (history_manager s) (available_images s) ≠ [] →
  ∃ y s',
    run answer (send_image cfg ev chat s) = (s', Ret true) ∧
    y ∈ get_unsent_images (history_manager s) (available_images s) ∧
    sent_images (history_manager s') = sent_images (history_manager s) ∪ {[AStr y]} ∧
    available_images s' = available_images s.
Proof.
  intros Hsrc Hopen Hok Hne Hun.
  assert (Hsel : ∃ y, get_random_image ev s = (s, Ret (Some y)) ∧
            y ∈ get_unsent_images (history_manager s) (available_images s)).
  { unfold get_random_image, bind, get. simpl.
    destruct (get_unsent_images (history_manager s) (available_images s))
      as [|x0 unsent]; [done|].
    destruct (random_choice_elem (rand ev) (x0 :: unsent)) as (y & -> & Hy); [done|].
    by exists y. }
  destruct Hsel as (y & Hsel & Hy). exists y.
  assert (Hy' : y ≠ "").
  { intros ->. apply Hne. by apply get_unsent_images_spec in Hy as [? _]. }
  unfold send_image, try_exceptT. rewrite run_catchC.
  unfold bindT at 1. rewrite run_bindC, run_sync, Hsel.
  unfold truthy, falsy. destruct (String.eqb_spec y ""); [done|].
  rewrite Hsrc. unfold deliver, bindT. rewrite run_bindC, run_sync, Hopen. simpl.
  rewrite Hok. rewrite run_bindC, run_sync, add_image_unfold, Hsrc. simpl.
  eexists. split_and!; [reflexivity|done| |].
  - simpl. rewrite save_history_unfold. by destruct (save_outcome ev).
  - simpl. rewrite save_history_unfold. by destruct (save_outcome ev).
Qed.

Lemma NoDup_list_filter {A} (f : A → bool) (l : list A) :
  NoDup l → NoDup (List.filter f l).
Proof.
  induction 1 as [|x l Hx Hnd IH]; simpl; [constructor|].
  destruct (f x); [|done]. constructor; [|done].
  rewrite list_elem_of_In, filter_In, <- list_elem_of_In. tauto.
Qed.

Lemma length_filter_remove (y : string) (l : list string) :
  NoDup l → y ∈ l →
  S (length (List.filter (λ z, negb (String.eqb z y)) l)) = length l.
Proof.
  induction 1 as [|x l Hx Hnd IH]; intros Hy.
  - by apply not_elem_of_nil in Hy.
  - simpl. destruct (String.eqb_spec x y) as [->|Hne]; simpl.
    + f_equal. clear IH Hy Hnd. induction l as [|z l IH]; simpl; [done|].
      apply not_elem_of_cons in Hx as [Hz Hx].
      destruct (String.eqb_spec z y); [congruence|]. simpl. f_equal. by apply IH.
    + f_equal. apply IH. apply elem_of_cons in Hy as [?|?]; [congruence|done].
Qed.

Lemma get_unsent_images_ext (h1 h2 : HistoryManager) (P : list string) :
  sent_images h1 = sent_images h2 → get_unsent_images h1 P = get_unsent_images h2 P.
Proof. intros He. unfold get_unsent_images, is_sent. by rewrite He. Qed.

Lemma run_send_image_exhausted cfg ev chat s answer :
  get_unsent_images (history_manager s) (available_images s) = [] →
  ∃ s', run answer (send_image cfg ev chat s) = (s', Ret false) ∧ logs_only s s'.
Proof.
  intros Hun.
  destruct (get_random_image_exhausted ev s) as (s1 & Hs1 & Hq).
  { intros x Hx.
    destruct (decide (AStr x ∈ sent_images (history_manager s))) as [|Hn]; [done|].
    exfalso. eapply not_elem_of_nil. rewrite <- Hun. by apply get_unsent_images_spec. }
  unfold send_image, try_exceptT. rewrite run_catchC.
  unfold bindT at 1. rewrite run_bindC, run_sync, Hs1. simpl.
  eexists. split; [done|]. etrans; [exact Hq|apply logs_only_add_log].
Qed.

Lemma dispatch_step cfg ev chat s answer :
  String.eqb (IMAGE_SOURCE cfg) "google_drive" = false →
  open_outcome ev = None →
  (∀ c path, answer (SendPhoto c path) = Ret ()) →
  NoDup (available_images s) →
  "" ∉ available_images s →
  ∃ s1 (b : bool),
    run answer (send_image cfg ev chat s) = (s1, Ret b) ∧
    available_images s1 = available_images s ∧
    match length (get_unsent_images (history_manager s) (available_images s)) with
    | O => b = false ∧
           length (get_unsent_images (history_manager s1) (available_images s1)) = O
    | S n => b = true ∧
             length (get_unsent_images (history_manager s1) (available_images s1)) = n
    end.
Proof.
  intros Hsrc Hopen Hok Hnd Hne.
  destruct (get_unsent_images (history_manager s) (available_images s))
    as [|x0 rest] eqn:Hun.
  - destruct (run_send_image_exhausted cfg ev chat s answer Hun) as (s1 & Hrun & Hq).
    exists s1, false. destruct Hq as (Hh & _ & Ha & _).
    split_and!; [done..|]. by rewrite Ha, Hh, Hun.
  - destruct (run_send_image_local cfg ev chat s answer Hsrc Hopen (Hok chat) Hne)
      as (y & s1 & Hrun & Hy & Hsent & Ha); [by rewrite Hun|].
    exists s1, true. split_and!; [done..|]. cbn [length]. split; [done|].
    assert (Hnd' : NoDup (x0 :: rest)).
    { rewrite <- Hun. unfold get_unsent_images. by apply NoDup_list_filter. }
    rewrite Hun in Hy.
    pose proof (length_filter_remove y (x0 :: rest) Hnd' Hy) as Hlen.
    cbn [length] in Hlen.
    rewrite Ha.
    rewrite (get_unsent_images_ext (history_manager s1)
               (history_manager (fst (add_image y "" WriteOk s))))
      by (by rewrite add_image_sent).
    rewrite add_image_unsent_filter, Hun. lia.
Qed.



End Exhaust.

(** ** Commands *)

Section Commands.

Implicit Types (cfg : Config) (ev : env) (chat : chat_id) (s : state)
  (answer : request → result unit) (text : string).

Lemma length_filter_split {A} (f : A → bool) (l : list A) :
  (length (List.filter f l) + length (List.filter (λ x, negb (f x)) l) = length l)%nat.
Proof.
  induction l as [|x l IH]; simpl; [done|]. destruct (f x); simpl; lia.
Qed.

Lemma size_sent_in_pool (self : HistoryManager) (P : list string) :
  NoDup P →
  (∀ a, a ∈ sent_images self → ∃ x, x ∈ P ∧ a = AStr x) →
  size (sent_images self) = length (List.filter (is_sent self) P).
Proof.
  intros Hnd Hsub.
  assert (Heq : sent_images self = list_to_set (AStr <$> List.filter (is_sent self) P)).
  { apply set_eq. intros a. rewrite elem_of_list_to_set, list_elem_of_fmap. split.
    - intros Ha. destruct (Hsub a Ha) as (x & Hx & ->). exists x. split; [done|].
      rewrite list_elem_of_In, filter_In, <- list_elem_of_In. split; [done|].
      by apply bool_decide_eq_true_2.
    - intros (x & -> & Hx).
      rewrite list_elem_of_In, filter_In in Hx. destruct Hx as [_ Hx].
      by apply bool_decide_eq_true_1 in Hx. }
  rewrite Heq at 1. rewrite size_list_to_set, length_fmap; [done|].
  apply NoDup_fmap_2; [by intros ?? [= ->]|]. by apply NoDup_list_filter.
Qed.

(** X13. [cmd_stats] replies with the size of the pool, the size of the
    history and the number of unsent ids, and changes nothing.  The
    unsent count is never above the pool size; when the pool lists no id
    twice and every id of the history is in the pool, sent and unsent
    add up to the pool size. *)
Theorem cmd_stats_spec s answer :
  let total := length (available_images s) in
  let sent := size (sent_images (history_manager s)) in
  let unsent := length (get_unsent_images (history_manager s) (available_images s)) in
  run answer (cmd_stats s) = (s, answer (ReplyText (MsgStats total sent unsent))) ∧
  (unsent ≤ total)%nat ∧
  (NoDup (available_images s) →
   (∀ a, a ∈ sent_images (history_manager s) → ∃ x, x ∈ available_images s ∧ a = AStr x) →
   (sent + unsent = total)%nat).
Proof.
  cbv zeta. split_and!.
  - done.
  - unfold get_unsent_images.
    pose proof (length_filter_split (is_sent (history_manager s)) (available_images s)). lia.
  - intros Hnd Hsub. rewrite (size_sent_in_pool _ _ Hnd Hsub).
    apply length_filter_split.
Qed.

(** X14. On an exhausted pool [cmd_send_now] only replies that there is
    nothing new: no dispatch is started and the state, log included,
    stays as it was; if the reply fails the handler ends with that
    error. *)
Theorem cmd_send_now_exhausted cfg ev s answer :
  get_unsent_images (history_manager s) (available_images s) = [] →
  run answer (cmd_send_now cfg ev s) = (s, answer (ReplyText MsgNoNewImages)) ∧
  ∃ k, cmd_send_now cfg ev s = Await s (ReplyText MsgNoNewImages) k.
Proof.
  intros Hun. unfold cmd_send_now, bindT, sync, get. simpl. rewrite Hun.
  split; [done|]. by eexists.
Qed.

(** "Send now" in the process of [all_sent]. *)
Lemma cmd_send_now_exhausted_witness :
  run network_up (cmd_send_now local_config (calm 10) all_sent)
    = (all_sent, network_up (ReplyText MsgNoNewImages)) ∧
  ∃ k, cmd_send_now local_config (calm 10) all_sent
         = Await all_sent (ReplyText MsgNoNewImages) k.
Proof.
  apply (cmd_send_now_exhausted local_config (calm 10) all_sent network_up).
  vm_compute. reflexivity.
Defined.

(** X15. A text that is none of the buttons is ignored: no reply, no
    change of state, no error. *)
Theorem handle_message_other cfg ev text s :
  text ∉ [ "📊 Статистика"; "🖼️ Отправить сейчас"; "🔄 Сбросить историю";
           "ℹ️ Справка"; "⚙️ Интервал"; "15 мин"; "30 мин"; "45 мин"; "1 час";
           "Назад" ] →
  handle_message cfg ev text s = Done s (Ret ()).
Proof.
  rewrite !not_elem_of_cons. intros (?&?&?&?&?&?&?&?&?&?&_).
  unfold handle_message, interval_map. cbn [interval_lookup].
  repeat match goal with
         | |- context [String.eqb text ?k] =>
             destruct (String.eqb_spec text k) as [?|_]; [done|]
         end.
  done.
Qed.

(** A message that is no button. *)
Lemma handle_message_other_witness :
  handle_message local_config (calm 10) "hello" nothing_sent = Done nothing_sent (Ret ()).
Proof.
  apply (handle_message_other local_config (calm 10) "hello" nothing_sent).
  rewrite !not_elem_of_cons. split_and!; [discriminate..|apply not_elem_of_nil].
Defined.

#[local] Instance same_setup_refl : Reflexive same_setup.
Proof. by intros s. Qed.

#[local] Instance same_setup_trans : Transitive same_setup.
Proof.
  intros s1 s2 s3 (?&?&?&?) (?&?&?&?). unfold same_setup. split_and!; congruence.
Qed.

Lemma logs_only_same_setup s s' : logs_only s s' → same_setup s s'.
Proof. intros (?&?&?&?&?&?). by split_and!. Qed.

Lemma save_history_same_setup now wo s : same_setup s (fst (_save_history now wo s)).
Proof. rewrite save_history_unfold. by destruct wo. Qed.

Lemma add_image_same_setup x now wo s : same_setup s (fst (add_image x now wo s)).
Proof. rewrite add_image_unfold, save_history_unfold. by destruct wo. Qed.

Lemma reset_history_same_setup now wo s : same_setup s (fst (reset_history now wo s)).
Proof. rewrite reset_history_unfold, save_history_unfold. by destruct wo. Qed.

Lemma run_deliver_same_setup cfg ev chat image_name image_path s answer :
  same_setup s (fst (run answer (deliver cfg ev chat image_name image_path s))).
Proof.
  unfold deliver, bindT. rewrite run_bindC, run_sync.
  destruct (open_outcome ev) as [code|]; simpl; [done|].
  destruct (answer (SendPhoto chat image_path)) as [[]|e]; simpl; [|done].
  rewrite run_bindC, run_sync, add_image_unfold, save_history_unfold.
  destruct (String.eqb (IMAGE_SOURCE cfg) "google_drive"), (remove_outcome ev),
    (save_outcome ev); by simpl.
Qed.

Lemma run_send_image_same_setup cfg ev chat s answer :
  same_setup s (fst (run answer (send_image cfg ev chat s))).
Proof.
  unfold send_image, try_exceptT. rewrite run_catchC.
  unfold bindT at 1. rewrite run_bindC, run_sync.
  pose proof (quiet_get_random_image ev s) as Hsel. apply logs_only_same_setup in Hsel.
  destruct (get_random_image ev s) as [s1 [image_name|e]]; simpl in Hsel.
  2:{ cbv beta iota delta [is_Exception].
      destruct (run_send_image_handler answer e s1) as [l ->]. by simpl. }
  destruct (truthy image_name) as [name|]; [|by simpl].
  assert (Hdel : ∀ path s2, same_setup s s2 →
    same_setup s (fst
      match run answer (deliver cfg ev chat name path s2) with
      | (s3, Ret a) => (s3, Ret a)
      | (s3, Raise e) =>
          if is_Exception e then
            run answer
              ((if is_TelegramError e then sync (logger (LogTelegramError e)) >>> retT false
                else if is_FileNotFoundError e then sync (logger (LogFileNotFound e)) >>> retT false
                else sync (logger (LogUnexpectedError e)) >>> retT false) s3)
          else (s3, Raise e)
      end)).
  { intros path s2 Hs2.
    pose proof (run_deliver_same_setup cfg ev chat name path s2 answer) as Hd.
    destruct (run answer (deliver cfg ev chat name path s2)) as [s3 [b|e]]; simpl in Hd.
    - simpl. by etrans.
    - cbv beta iota delta [is_Exception].
      destruct (run_send_image_handler answer e s3) as [l ->]. simpl.
      etrans; [exact Hs2|]. etrans; [exact Hd|done]. }
  destruct (String.eqb (IMAGE_SOURCE cfg) "google_drive").
  - unfold bindT. rewrite run_bindC, run_sync.
    destruct (download_image_from_google_drive_cases cfg ev name s1) as (s2 & -> & Hdl).
    apply logs_only_same_setup in Hdl.
    destruct (truthy _) as [path|].
    + apply Hdel. by etrans.
    + simpl. etrans; [exact Hsel|]. etrans; [exact Hdl|done].
  - by apply Hdel.
Qed.

(** X16. No message changes the pool, the Drive manager or the job
    queue.  The send interval changes only on the four interval buttons,
    and the history and its file only on "send now" and "reset
    history". *)
Theorem handle_message_frame cfg ev text s answer :
  let s' := fst (run answer (handle_message cfg ev text s)) in
  google_drive_manager s' = google_drive_manager s ∧
  available_images s' = available_images s ∧
  job_queue s' = job_queue s ∧
  (interval_lookup interval_map text = None →
     current_send_interval s' = current_send_interval s) ∧
  (text ≠ "🖼️ Отправить сейчас" → text ≠ "🔄 Сбросить историю" →
     history_manager s' = history_manager s ∧ disk s' = disk s).
Proof.
  cbv zeta.
  assert (Hframe : ∀ s1, same_setup s s1 →
            google_drive_manager s1 = google_drive_manager s ∧
            available_images s1 = available_images s ∧
            job_queue s1 = job_queue s ∧
            (interval_lookup interval_map text = None →
               current_send_interval s1 = current_send_interval s)).
  { intros s1 (?&?&?&?). by split_and!. }
  unfold handle_message.
  destruct (String.eqb_spec text "📊 Статистика") as [->|_].
  { by split_and!. }
  destruct (String.eqb_spec text "🖼️ Отправить сейчас") as [->|?].
  { assert (Hs : same_setup s (fst (run answer (cmd_send_now cfg ev s)))).
    { unfold cmd_send_now, bindT. rewrite run_bindC, run_sync. simpl.
      destruct (get_unsent_images (history_manager s) (available_images s)); [done|].
      rewrite run_bindC.
      pose proof (run_send_image_same_setup cfg ev (channel_id cfg) s answer) as Hs.
      destruct (run answer (send_image cfg ev (channel_id cfg) s)) as [s1 [[]|e]]; done. }
    destruct (Hframe _ Hs) as (?&?&?&?). by split_and!. }
  destruct (String.eqb_spec text "🔄 Сбросить историю") as [->|?].
  { assert (Hs : same_setup s (fst (run answer (cmd_reset_history ev s)))).
    { unfold cmd_reset_history, bindT. rewrite run_bindC, run_sync.
      pose proof (reset_history_same_setup (now ev) (save_outcome ev) s) as Hs.
      rewrite reset_history_unfold in *. done. }
    destruct (Hframe _ Hs) as (?&?&?&?). by split_and!. }
  destruct (String.eqb_spec text "ℹ️ Справка") as [->|_].
  { by split_and!. }
  destruct (String.eqb_spec text "⚙️ Интервал") as [->|_].
  { by split_and!. }
  destruct (interval_lookup interval_map text) as [minutes|].
  { unfold bindT. rewrite run_bindC, run_sync. simpl.
    destruct (answer (ReplyText (MsgIntervalChanged minutes))) as [[]|e]; by split_and!. }
  destruct (String.eqb_spec text "Назад") as [->|_]; by split_and!.
Qed.

End Commands.

(** ** Configuration *)

Section Configuration.

Implicit Types (c : Settings.t) (ex : string → bool).

(** Whether a run of checks that each may append an error ends without
    any. *)
Lemma append_not_nil (errors : list string) (error : string) : append errors error ≠ [].
Proof. unfold append. by destruct errors. Qed.

Lemma append_nil (errors : list string) (error : string) :
  append errors error = [] ↔ False.
Proof. split; [apply append_not_nil|done]. Qed.

Lemma check_nil (failed : bool) (error : string) (errors : list string) :
  check failed error errors = [] ↔ failed = false ∧ errors = [].
Proof.
  unfold check. destruct failed; [|naive_solver].
  split; [|naive_solver]. intros H. by apply append_not_nil in H.
Qed.

Lemma is_valid_checks ex c :
  fst (is_valid ex c) = true ↔
    (falsy (Settings.BOT_TOKEN c) || is_str (Settings.BOT_TOKEN c) "YOUR_BOT_TOKEN_HERE" = false) ∧
    falsy (Settings.CHAT_ID c) = false ∧
    ((String.eqb (Settings.IMAGE_SOURCE c) "local" = true ∧
      (falsy (Settings.IMAGES_PATH c)
       || is_str (Settings.IMAGES_PATH c) "/path/to/your/images/folder" = false) ∧
      ex (default "" (Settings.IMAGES_PATH c)) = true) ∨
     (String.eqb (Settings.IMAGE_SOURCE c) "local" = false ∧
      String.eqb (Settings.IMAGE_SOURCE c) "google_drive" = true ∧
      (falsy (Settings.GOOGLE_DRIVE_FOLDER_ID c)
       || is_str (Settings.GOOGLE_DRIVE_FOLDER_ID c) "your_folder_id_here" = false) ∧
      ex (Settings.GOOGLE_DRIVE_CREDENTIALS c) = true)) ∧
    (Settings.SEND_INTERVAL c <=? 0)%Z = false ∧
    ((Settings.START_HOUR c <? 0)%Z || (Settings.START_HOUR c >? 23)%Z = false) ∧
    ((Settings.END_HOUR c <? 0)%Z || (Settings.END_HOUR c >? 23)%Z = false) ∧
    (Settings.START_HOUR c >=? Settings.END_HOUR c)%Z = false.
Proof.
  unfold is_valid. cbv zeta. cbn [fst].
  rewrite Nat.eqb_eq, length_zero_iff_nil.
  split.
  - intros H.
    do 4 (apply check_nil in H as [? H]).
    destruct (String.eqb (Settings.IMAGE_SOURCE c) "local").
    + destruct (falsy (Settings.IMAGES_PATH c)
                || is_str (Settings.IMAGES_PATH c) "/path/to/your/images/folder");
        [by apply append_not_nil in H|].
      destruct (ex (default "" (Settings.IMAGES_PATH c))); cbn [negb] in H;
        [|by apply append_not_nil in H].
      do 2 (apply check_nil in H as [? H]). split_and!; try assumption. by left.
    + destruct (String.eqb (Settings.IMAGE_SOURCE c) "google_drive");
        [|by apply append_not_nil in H].
      do 4 (apply check_nil in H as [? H]).
      split_and!; try assumption. right. split_and!; try done.
      by destruct (ex (Settings.GOOGLE_DRIVE_CREDENTIALS c)).
  - intros (Ht & Hc & Hsrc & Hi & Hs & He & Ho).
    do 4 (apply check_nil; split; [assumption|]).
    destruct Hsrc as [(-> & -> & ->)|(-> & -> & Hf & ->)]; cbn [negb].
    + do 2 (apply check_nil; split; [assumption|]). reflexivity.
    + do 4 (apply check_nil; split; [done|]). reflexivity.
Qed.

Lemma configured_iff (x : option string) (placeholder : string) :
  falsy x || is_str x placeholder = false ↔
  ∃ v, x = Some v ∧ v ≠ "" ∧ v ≠ placeholder.
Proof.
  destruct x as [v|]; simpl.
  - rewrite orb_false_iff.
    destruct (String.eqb_spec v ""), (String.eqb_spec v placeholder); naive_solver.
  - naive_solver.
Qed.

Lemma truthy_iff (x : option string) :
  falsy x = false ↔ ∃ v, x = Some v ∧ v ≠ "".
Proof.
  destruct x as [v|]; simpl; [|naive_solver].
  destruct (String.eqb_spec v ""); naive_solver.
Qed.

(** X17. [Config.is_valid] answers [True] exactly when it lists no error,
    and that is exactly when: the token and the chat are set, the token
    is not the placeholder; the source is ["local"] with a configured
    path that exists, or ["google_drive"] with a configured folder id and
    an existing credentials file; the send interval is positive; and
    [0 <= START_HOUR < END_HOUR <= 23]. *)
Theorem is_valid_spec ex c :
  (fst (is_valid ex c) = true ↔ snd (is_valid ex c) = []) ∧
  (fst (is_valid ex c) = true ↔
     (∃ token, Settings.BOT_TOKEN c = Some token ∧ token ≠ "" ∧
               token ≠ "YOUR_BOT_TOKEN_HERE") ∧
     (∃ chat, Settings.CHAT_ID c = Some chat ∧ chat ≠ "") ∧
     ((Settings.IMAGE_SOURCE c = "local" ∧
       ∃ path, Settings.IMAGES_PATH c = Some path ∧ path ≠ "" ∧
               path ≠ "/path/to/your/images/folder" ∧ ex path = true) ∨
      (Settings.IMAGE_SOURCE c = "google_drive" ∧
       (∃ folder, Settings.GOOGLE_DRIVE_FOLDER_ID c = Some folder ∧ folder ≠ "" ∧
                  folder ≠ "your_folder_id_here") ∧
       ex (Settings.GOOGLE_DRIVE_CREDENTIALS c) = true)) ∧
     (0 < Settings.SEND_INTERVAL c)%Z ∧
     (0 ≤ Settings.START_HOUR c < Settings.END_HOUR c)%Z ∧
     (Settings.END_HOUR c ≤ 23)%Z).
Proof.
  split.
  { unfold is_valid. cbv zeta. cbn [fst snd].
    by rewrite Nat.eqb_eq, length_zero_iff_nil. }
  split.
  - intros Hv. apply is_valid_checks in Hv as (Ht & Hc & Hsrc & Hi & Hs & He & Ho).
    apply configured_iff in Ht. apply truthy_iff in Hc.
    apply Z.leb_gt in Hi. apply orb_false_iff in Hs as [Hs1 Hs2].
    apply orb_false_iff in He as [He1 He2].
    apply Z.ltb_ge in Hs1, He1. rewrite Z.gtb_ltb in Hs2, He2.
    apply Z.ltb_ge in Hs2, He2. rewrite Z.geb_leb in Ho. apply Z.leb_gt in Ho.
    split_and!; try done; try lia.
    destruct Hsrc as [(Hl & Hp & Hex)|(_ & Hg & Hf & Hex)].
    + left. apply String.eqb_eq in Hl. apply configured_iff in Hp as (p & Hp & ? & ?).
      rewrite Hp in Hex. split; [done|]. by exists p.
    + right. apply String.eqb_eq in Hg. apply configured_iff in Hf. done.
  - intros (Ht & Hc & Hsrc & Hi & Hs & He).
    apply is_valid_checks. split_and!.
    + by apply configured_iff.
    + by apply truthy_iff.
    + destruct Hsrc as [(Hl & p & Hp & ? & ? & Hex)|(Hg & Hf & Hex)].
      * left. split_and!; [by apply String.eqb_eq| |by rewrite Hp].
        apply configured_iff. by exists p.
      * right. rewrite Hg. split_and!; [done|done| |done]. by apply configured_iff.
    + apply Z.leb_gt. lia.
    + apply orb_false_iff. rewrite Z.ltb_ge, Z.gtb_ltb, Z.ltb_ge. lia.
    + apply orb_false_iff. rewrite Z.ltb_ge, Z.gtb_ltb, Z.ltb_ge. lia.
    + rewrite Z.geb_leb. apply Z.leb_gt. lia.
Qed.

(** X18. With settings that [Config.is_valid] accepts, the working
    hours lie within one day: a tick at the start hour is let through,
    and a tick at hour 23 can never be, since [END_HOUR] is at most 23
    and the window ends before it. *)
Theorem valid_settings_window ex c :
  fst (is_valid ex c) = true →
  outside_working_hours (core c) (Settings.START_HOUR c) = false ∧
  outside_working_hours (core c) (Settings.END_HOUR c - 1) = false ∧
  outside_working_hours (core c) 23 = true ∧
  ∀ hour, outside_working_hours (core c) hour = false → (0 ≤ hour ≤ 22)%Z.
Proof.
  intros Hv. apply is_valid_spec in Hv as (_ & _ & _ & _ & Hs & He).
  unfold outside_working_hours, core. cbn [START_HOUR END_HOUR].
  split_and!.
  - apply orb_false_iff. rewrite Z.ltb_ge, Z.geb_leb, Z.leb_gt. lia.
  - apply orb_false_iff. rewrite Z.ltb_ge, Z.geb_leb, Z.leb_gt. lia.
  - apply orb_true_iff. right. rewrite Z.geb_leb, Z.leb_le. lia.
  - intros hour. rewrite orb_false_iff, Z.ltb_ge, Z.geb_leb, Z.leb_gt. lia.
Qed.

(** The settings of [local_settings], on a machine where every path
    exists. *)
Lemma valid_settings_window_witness :
  outside_working_hours (core local_settings) (Settings.START_HOUR local_settings) = false ∧
  outside_working_hours (core local_settings) (Settings.END_HOUR local_settings - 1) = false ∧
  outside_working_hours (core local_settings) 23 = true ∧
  ∀ hour, outside_working_hours (core local_settings) hour = false → (0 ≤ hour ≤ 22)%Z.
Proof.
  apply (valid_settings_window (λ _, true) local_settings). reflexivity.
Defined.

End Configuration.

(** ** Starting up *)

Section Startup.

Implicit Types (h : host) (c : Settings.t) (b : boot).

(** X19. [get_image_by_name] answers the first entry of the folder with
    the given name, and [None] exactly when the folder has no entry of
    that name; of two entries with the same name the later one is never
    found. *)
Theorem get_image_by_name_spec (imgs : list (string * string)) (name : string) :
  match get_image_by_name imgs name with
  | Some img =>
      snd img = name ∧
      ∃ before after, imgs = (before ++ img :: after)%list ∧ name ∉ map snd before
  | None => name ∉ map snd imgs
  end.
Proof.
  induction imgs as [|img imgs IH]; simpl.
  - apply not_elem_of_nil.
  - destruct (String.eqb_spec (snd img) name) as [Heq|Hne].
    + split; [done|]. exists [], imgs. split; [done|apply not_elem_of_nil].
    + destruct (get_image_by_name imgs name) as [found|].
      * destruct IH as (Hn & before & after & -> & Hb). split; [done|].
        exists (img :: before), after. split; [done|].
        simpl. apply not_elem_of_cons. by split.
      * apply not_elem_of_cons. by split.
Qed.

Lemma load_images_from_local_unfold h c b :
  load_images_from_local h c b =
    if falsy (Settings.IMAGES_PATH c)
       || negb (path_exists h (default "" (Settings.IMAGES_PATH c)))
    then (mkBoot (proc b) (startup_log b ++ [LogImagesPathNotFound]), Ret false)
    else
      match iterdir h (default "" (Settings.IMAGES_PATH c)) with
      | Raise e => (b, Raise e)
      | Ret entries =>
          let images :=
            map entry_path
                (List.filter (λ f, entry_is_file f && has_image_suffix (entry_name f))
                             entries) in
          (mkBoot (set_available_images images (proc b))
                  (startup_log b ++ [match images with
                                     | [] => LogNoImagesFound
                                     | _ :: _ => LogLoadedLocal (length images)
                                     end]),
           Ret (match images with [] => false | _ :: _ => true end))
      end.
Proof.
  unfold load_images_from_local.
  destruct (falsy (Settings.IMAGES_PATH c)
            || negb (path_exists h (default "" (Settings.IMAGES_PATH c)))); [done|].
  unfold bindB. destruct (iterdir h (default "" (Settings.IMAGES_PATH c))) as [entries|e];
    [|done].
  cbv zeta.
  by destruct (map entry_path
                 (List.filter (λ f, entry_is_file f && has_image_suffix (entry_name f))
                    entries)).
Qed.

(** X20. [load_images_from_local]: when the images path is unset, empty
    or missing it answers [False] and leaves the pool alone; an error of
    the directory listing is not caught and leaves the function; else
    the pool becomes the paths of the regular files whose name has an
    image suffix, and the answer is whether that pool is non-empty (a
    folder without images empties the pool). *)
Theorem load_images_from_local_spec h c b :
  let path := default "" (Settings.IMAGES_PATH c) in
  let r := load_images_from_local h c b in
  (falsy (Settings.IMAGES_PATH c) || negb (path_exists h path) = true →
     snd r = Ret false ∧ proc (fst r) = proc b) ∧
  (falsy (Settings.IMAGES_PATH c) || negb (path_exists h path) = false →
     match iterdir h path with
     | Raise e => r = (b, Raise e)
     | Ret entries =>
         snd r = Ret (bool_decide (available_images (proc (fst r)) ≠ [])) ∧
         proc (fst r) = set_available_images (available_images (proc (fst r))) (proc b) ∧
         ∀ x, x ∈ available_images (proc (fst r)) ↔
              ∃ f, f ∈ entries ∧ x = entry_path f ∧ entry_is_file f = true ∧
                   has_image_suffix (entry_name f) = true
     end).
Proof.
  cbv zeta. rewrite load_images_from_local_unfold.
  split; intros ->; [done|].
  destruct (iterdir h (default "" (Settings.IMAGES_PATH c))) as [entries|e]; [|done].
  cbv zeta. cbn [fst snd proc set_available_images available_images].
  split_and!.
  - by destruct (map entry_path _).
  - done.
  - intros x. rewrite list_elem_of_fmap. split.
    + intros (f & -> & Hf). exists f.
      rewrite list_elem_of_In, filter_In, andb_true_iff, <- list_elem_of_In in Hf.
      naive_solver.
    + intros (f & Hf & -> & Hfile & Hsuf). exists f. split; [done|].
      rewrite list_elem_of_In, filter_In, andb_true_iff, <- list_elem_of_In. done.
Qed.

Lemma load_images_from_google_drive_cases h c b :
  let images files := List.filter (λ file, has_image_ending (snd file)) files in
  let r := load_images_from_google_drive h c b in
  (∃ files,
     path_exists h (Settings.GOOGLE_DRIVE_CREDENTIALS c) = true ∧
     authenticate h = None ∧
     drive_files h = Ret files ∧
     images files ≠ [] ∧
     snd r = Ret true ∧
     proc (fst r) =
       set_available_images (map snd (images files))
         (set_google_drive_manager (Some (mkGoogleDriveManager (images files))) (proc b))) ∨
  (snd r = Ret false ∧
   available_images (proc (fst r)) = available_images (proc b) ∧
   (path_exists h (Settings.GOOGLE_DRIVE_CREDENTIALS c) = false ∨
    authenticate h ≠ None ∨
    (∃ e, drive_files h = Raise e) ∨
    (∃ files, drive_files h = Ret files ∧ images files = []))).
Proof.
  cbv zeta.
  unfold load_images_from_google_drive, GoogleDriveManager_init, GoogleDriveManager_load_images,
    load_images_method.
  destruct (path_exists h (Settings.GOOGLE_DRIVE_CREDENTIALS c)) eqn:Hcred;
    [|right; split_and!; [done|done|by left]].
  destruct (authenticate h) as [e|] eqn:Hauth;
    [right; split_and!; [done|done|right; by left]|].
  destruct (drive_files h) as [files|e] eqn:Hfiles.
  - destruct (List.filter (λ file, has_image_ending (snd file)) files) as [|img imgs] eqn:Himgs.
    + right. unfold tryB, bindB, liftB, modify, tell, retB; cbn -[has_image_ending].
      rewrite ?Himgs; cbn. split_and!; [done|done|].
      do 3 right. by exists files.
    + left. exists files. unfold tryB, bindB, liftB, modify, tell, retB, get;
        cbn -[has_image_ending].
      rewrite ?Himgs; cbn. by split_and!.
  - right. unfold tryB, bindB, liftB, modify, tell, retB; cbn.
    split_and!; [done|done|]. right; right; left. by exists e.
Qed.

Lemma get_image_by_name_Some imgs name :
  name ∈ map snd imgs → ∃ img, get_image_by_name imgs name = Some img ∧ snd img = name.
Proof.
  induction imgs as [|img imgs IH]; simpl.
  - by intros ?%elem_of_nil.
  - intros Hin. destruct (String.eqb_spec (snd img) name) as [Heq|Hne]; [by exists img|].
    apply elem_of_cons in Hin as [->|Hin]; [done|auto].
Qed.

(** X21. [load_images_from_google_drive] never raises.  It answers
    [True] only when the credentials file exists, the authentication and
    the listing succeed and the folder lists a file whose lowered name
    ends with an image extension; the manager then holds those files in
    listing order and the pool their names, so that the pool is not
    empty and every name of the pool is found again by
    [get_image_by_name] on the manager.  When it answers [False] the
    pool is the one it was. *)
Theorem load_images_from_google_drive_spec h c b :
  let r := load_images_from_google_drive h c b in
  let s' := proc (fst r) in
  (snd r = Ret true ∧
   path_exists h (Settings.GOOGLE_DRIVE_CREDENTIALS c) = true ∧
   authenticate h = None ∧
   available_images s' ≠ [] ∧
   ∃ files manager,
     drive_files h = Ret files ∧
     google_drive_manager s' = Some manager ∧
     images manager = List.filter (λ file, has_image_ending (snd file)) files ∧
     available_images s' = get_image_list manager ∧
     ∀ name, name ∈ available_images s' →
       has_image_ending name = true ∧
       ∃ img, get_image_by_name (images manager) name = Some img ∧ snd img = name) ∨
  (snd r = Ret false ∧ available_images s' = available_images (proc b)).
Proof.
  cbv zeta.
  destruct (load_images_from_google_drive_cases h c b)
    as [(files & Hcred & Hauth & Hfiles & Hne & Hr & Hs)|(Hr & Hpool & _)];
    [left|by right].
  rewrite Hs. cbn [set_available_images set_google_drive_manager available_images
                   google_drive_manager].
  split_and!; [done|done|done| |].
  - by destruct (List.filter _ files).
  - eexists files, _. split_and!; [done|reflexivity|reflexivity|reflexivity|].
    cbn [images]. intros name Hin. split; [|by apply get_image_by_name_Some].
    apply list_elem_of_fmap in Hin as (file & -> & Hin).
    apply list_elem_of_In, filter_In in Hin. tauto.
Qed.

Lemma log_errors_spec (errors : list string) b :
  log_errors errors b =
    (mkBoot (proc b) (startup_log b ++ map LogConfigurationError errors), Ret ()).
Proof.
  revert b. induction errors as [|error errors IH]; intros [s l]; simpl.
  - unfold retB. by rewrite app_nil_r.
  - unfold bindB, tell. rewrite IH. cbn. by rewrite <- app_assoc.
Qed.

(** What [load_images] leaves alone, and what its [True] means. *)
Lemma load_images_frame h c b :
  let r := load_images h c b in
  let s' := proc (fst r) in
  history_manager s' = history_manager (proc b) ∧
  current_send_interval s' = current_send_interval (proc b) ∧
  job_queue s' = job_queue (proc b) ∧
  disk s' = disk (proc b) ∧
  log s' = log (proc b) ∧
  (snd r = Ret true → available_images s' ≠ []).
Proof.
  cbv zeta. unfold load_images.
  destruct (String.eqb (Settings.IMAGE_SOURCE c) "google_drive").
  - destruct (load_images_from_google_drive_cases h c b)
      as [(files & _ & _ & _ & Hne & _ & Hs)|(Hr & _ & _)].
    + rewrite Hs. split_and!; try done. intros _. cbn. by destruct (List.filter _ files).
    + split_and!; [..|by rewrite Hr].
      all: unfold load_images_from_google_drive, GoogleDriveManager_init,
             GoogleDriveManager_load_images, load_images_method;
           destruct (path_exists h (Settings.GOOGLE_DRIVE_CREDENTIALS c)); [|done];
           destruct (authenticate h); [done|];
           unfold tryB, bindB, liftB, modify, tell, retB, get; cbn -[has_image_ending];
           destruct (drive_files h) as [files|e]; [|done];
           cbn -[has_image_ending];
           by destruct (List.filter _ files).
  - rewrite load_images_from_local_unfold.
    destruct (falsy (Settings.IMAGES_PATH c) || _); [done|].
    destruct (iterdir h _) as [entries|e]; [|done].
    cbv zeta. split_and!; try done. cbn. by destruct (map entry_path _).
Qed.

(** X22. [main], run in the process as the import of [main.py] leaves
    it, either registers exactly one job, named
    ["repeating_image_send"], first run after 60 seconds and then every
    3600 seconds whatever [SEND_INTERVAL] says, for the chat of
    [CHAT_ID], or registers none.  It registers the job only when the
    settings are valid, the pool is not empty and the application was
    built, and then it returns; with invalid settings it returns having
    logged every error of [is_valid] and touched nothing else.  The
    history and its file are never touched. *)
Theorem main_spec h c (hm : HistoryManager) (d : option file_content) :
  let r := main h c (imported hm d) in
  let s' := proc (fst r) in
  history_manager s' = hm ∧ disk s' = d ∧ current_send_interval s' = 60%Z ∧
  ((job_queue s' = [mkJob "repeating_image_send" 3600 60 (channel_id (core c))] ∧
    snd r = Ret () ∧
    fst (is_valid (path_exists h) c) = true ∧
    available_images s' ≠ [] ∧
    build_application h = None ∧
    log s' = [LogJobQueueConfigured 60]) ∨
   (job_queue s' = [] ∧ log s' = [])) ∧
  (fst (is_valid (path_exists h) c) = false →
     snd r = Ret () ∧
     proc (fst r) = proc (imported hm d) ∧
     startup_log (fst r) =
       ([LogStarting; LogConfigurationErrors]
          ++ map LogConfigurationError (snd (is_valid (path_exists h) c)))%list).
Proof.
  cbv zeta. unfold main.
  destruct (is_valid (path_exists h) c) as [valid errors]. cbn [fst snd].
  unfold bindB, tell. cbn [proc startup_log imported app].
  destruct valid; cbn [negb].
  - pose proof (load_images_frame h c (mkBoot (mkState hm None [] 60 [] d []) [LogStarting]))
      as Hframe.
    cbv zeta in Hframe. cbn [proc history_manager current_send_interval job_queue disk log]
      in Hframe.
    destruct (load_images h c _) as [b1 [loaded|e]].
    + cbn [fst snd] in Hframe. destruct Hframe as (Hhm & Hint & Hjobs & Hdisk & Hlog & Hpool).
      destruct loaded; cbn [negb].
      * destruct (build_application h) as [e|].
        -- cbn. split_and!; [done|done|done| |done]. by right.
        -- unfold liftB, setup_schedule, bind, get, modify, logger; cbn.
           rewrite Hint, Hjobs, Hlog.
           split_and!; [done|done|done| |done].
           left. split_and!; try done. by apply Hpool.
      * cbn. split_and!; [done|done|done| |done]. by right.
    + cbn [fst snd] in Hframe. destruct Hframe as (Hhm & Hint & Hjobs & Hdisk & Hlog & _).
      cbn. split_and!; [done|done|done| |done]. by right.
  - rewrite log_errors_spec. cbn.
    split_and!; [done|done|done| |done]. by right.
Qed.

End Startup.

(** ** File names *)

Section FileNames.

Implicit Types (s t p ext name : string) (a : Ascii.ascii).

Lemma append_empty s : "" ++ s = s.
Proof. reflexivity. Qed.

Lemma append_String a s t : String a s ++ t = String a (s ++ t).
Proof. reflexivity. Qed.

Ltac norm_append :=
  repeat (rewrite append_empty in * || rewrite append_String in * ).

Lemma lower_String a s : lower (String a s) = String (lower_ascii a) (lower s).
Proof. reflexivity. Qed.

Lemma lower_app s t : lower (s ++ t) = lower s ++ lower t.
Proof. induction s as [|a s IH]; simpl; [done|by rewrite IH]. Qed.

Lemma lower_app_inv name p t :
  lower name = p ++ t → ∃ p' t', name = p' ++ t' ∧ lower p' = p ∧ lower t' = t.
Proof.
  revert name. induction p as [|a p IH]; intros name Hname.
  - by exists "", name.
  - destruct name as [|a' name]; [done|]. norm_append.
    injection Hname as Ha Hname. apply IH in Hname as (p' & t' & -> & <- & <-).
    exists (String a' p'), t'. simpl. by rewrite Ha.
Qed.

Lemma lower_ascii_dot a : String (lower_ascii a) "" = "." ↔ String a "" = ".".
Proof.
  split; [|by intros [= ->]].
  destruct a as [[] [] [] [] [] [] [] []]; vm_compute; congruence.
Qed.

Lemma endswith_spec s ext : endswith s ext = true ↔ ∃ p, s = p ++ ext.
Proof.
  induction s as [|a s IH]; cbn [endswith].
  - rewrite orb_false_r. destruct (String.eqb_spec "" ext) as [<-|Hne].
    + split; [by exists ""|done].
    + split; [done|]. intros ([|??] & Hp); norm_append; congruence.
  - rewrite orb_true_iff, IH. destruct (String.eqb_spec (String a s) ext) as [<-|Hne].
    + split; [by exists ""|by left].
    + split.
      * intros [?|(p & ->)]; [done|]. by exists (String a p).
      * intros ([|a' p] & Hp); norm_append; [congruence|].
        right. exists p. congruence.
Qed.

Lemma from_last_dot_suffix s t :
  from_last_dot s = Some t → ∃ p t', s = p ++ t ∧ t = "." ++ t'.
Proof.
  revert t. induction s as [|a s IH]; intros t; cbn [from_last_dot]; [done|].
  destruct (from_last_dot s) as [t0|].
  - intros [= <-]. destruct (IH t0 eq_refl) as (p & t' & -> & ->).
    by exists (String a p), t'.
  - destruct (String.eqb_spec (String a "") ".") as [[= ->]|_]; [|done].
    intros [= <-]. by exists "", s.
Qed.

Lemma from_last_dot_app_None p t : from_last_dot (p ++ t) = None → from_last_dot t = None.
Proof.
  induction p as [|a p IH]; norm_append; cbn [from_last_dot]; [done|].
  destruct (from_last_dot (p ++ t)); [done|auto].
Qed.

Lemma from_last_dot_lower s : from_last_dot (lower s) = None ↔ from_last_dot s = None.
Proof.
  induction s as [|a s IH]; cbn [lower from_last_dot]; [done|].
  destruct (from_last_dot (lower s)), (from_last_dot s); try done.
  - destruct IH as [_ IH]. discriminate (IH eq_refl).
  - destruct IH as [IH _]. discriminate (IH eq_refl).
  - destruct (String.eqb_spec (String (lower_ascii a) "") ".") as [H1|H1],
             (String.eqb_spec (String a "") ".") as [H2|H2]; try done.
    + apply (proj1 (lower_ascii_dot a)) in H1. contradiction.
    + apply (proj2 (lower_ascii_dot a)) in H2. contradiction.
Qed.

Lemma from_last_dot_app p t' :
  from_last_dot t' = None → from_last_dot (p ++ "." ++ t') = Some ("." ++ t').
Proof.
  intros Hnone. induction p as [|a p IH]; norm_append; cbn [from_last_dot].
  - by rewrite Hnone.
  - by rewrite IH.
Qed.

(** An image extension is a dot followed by letters. *)
Lemma in_extensions_shape ext :
  in_extensions ext = true →
  ∃ e, ext = "." ++ e ∧ e ≠ "" ∧ from_last_dot e = None.
Proof.
  unfold in_extensions, IMAGE_EXTENSIONS. simpl.
  rewrite !orb_true_iff, !String.eqb_eq.
  intros [->|[->|[->|[->|[->|[->|?]]]]]]; [eexists; split_and!; [reflexivity|done|done]..|done].
Qed.

(** A name with an image suffix ends with it, and is longer than it. *)
Lemma has_image_suffix_ending name :
  has_image_suffix name = true →
  has_image_ending name = true ∧ in_extensions (lower name) = false.
Proof.
  unfold has_image_suffix, has_image_ending.
  intros Hext. destruct name as [|a rest]; [done|]. simpl in Hext.
  destruct (from_last_dot rest) as [t|] eqn:Hrest; [|done].
  destruct (String.eqb t "."); [done|].
  apply from_last_dot_suffix in Hrest as (p & t' & -> & ->).
  split.
  - apply existsb_exists. exists (lower ("." ++ t')). split.
    + unfold in_extensions in Hext.
      apply existsb_exists in Hext as (x & Hx & ->%String.eqb_eq). done.
    + apply endswith_spec. exists (lower (String a p)).
      by rewrite <- lower_app.
  - destruct (in_extensions (lower (String a (p ++ "." ++ t')))) eqn:Hname; [|done].
    apply in_extensions_shape in Hname as (e & He & _ & Hnone).
    norm_append. injection He as _ He. rewrite lower_app in He. rewrite <- He in Hnone.
    apply from_last_dot_app_None in Hnone. norm_append; simpl in Hnone.
    destruct (from_last_dot (lower t')); done.
Qed.

(** A name that ends with an image extension and is longer than it has
    that extension as its suffix. *)
Lemma has_image_ending_suffix name :
  has_image_ending name = true → in_extensions (lower name) = false →
  has_image_suffix name = true.
Proof.
  unfold has_image_suffix, has_image_ending.
  intros (ext & Hin & Hends)%existsb_exists Hbare.
  assert (in_extensions ext = true) as Hext.
  { apply existsb_exists. exists ext. split; [done|apply String.eqb_refl]. }
  apply endswith_spec in Hends as (p & Hname).
  destruct p as [|a p].
  { norm_append. congruence. }
  apply lower_app_inv in Hname as (p' & t & -> & Hp & Ht).
  destruct p' as [|a' p']; [done|]. clear Hp.
  pose proof Hext as (e & He & Hne & Hnone)%in_extensions_shape.
  rewrite He in Ht. destruct t as [|b t]; [done|].
  norm_append; simpl in Ht. injection Ht as Hb Ht.
  assert (String b "" = ".") as [= ->].
  { apply lower_ascii_dot. by rewrite Hb. }
  rewrite <- Ht in Hnone. apply (proj1 (from_last_dot_lower t)) in Hnone.
  cbn [suffix lower]. pose proof (from_last_dot_app p' t Hnone) as Hlast. norm_append.
  rewrite Hlast.
  destruct t as [|c t]; [simpl in Ht; congruence|].
  match goal with
  | |- context [String.eqb ?x ?y] =>
      destruct (String.eqb_spec x y) as [Heq|_]; [discriminate Heq|]
  end.
  rewrite lower_String, Hb, Ht, <- He. exact Hext.
Qed.

(** X23. The two tests of a file name differ on the names that are
    nothing but an extension: a name passes the test of
    [load_images_from_local] exactly when it passes the one of
    [GoogleDriveManager.load_images] and is longer than the extension it
    ends with. *)
Theorem has_image_suffix_iff name :
  has_image_suffix name = true ↔
  has_image_ending name = true ∧ in_extensions (lower name) = false.
Proof.
  split.
  - apply has_image_suffix_ending.
  - intros [Hends Hbare]. by apply has_image_ending_suffix.
Qed.

End FileNames.

(** ** Commands that change the history *)

Section HistoryCommands.

Implicit Types (cfg : Config) (ev : env) (s : state) (answer : request → result unit).

(** X24. [cmd_reset_history] clears the history before it replies: the
    reply carries the number of ids cleared, and whether the reply is
    delivered or fails (its error then leaves the handler), the history
    is empty afterwards, every image of the pool is unsent again and the
    rest of the set-up is as before. *)
Theorem cmd_reset_history_spec ev s answer :
  let r := run answer (cmd_reset_history ev s) in
  snd r = answer (ReplyText (MsgHistoryReset (size (sent_images (history_manager s))))) ∧
  sent_images (history_manager (fst r)) = ∅ ∧
  get_unsent_images (history_manager (fst r)) (available_images (fst r))
    = available_images s ∧
  same_setup s (fst r).
Proof.
  cbv zeta. unfold cmd_reset_history, bindT. rewrite run_bindC, run_sync.
  rewrite reset_history_unfold. cbn [run await fst snd].
  assert (sent_images (history_manager
            (add_log (LogHistoryReset (size (sent_images (history_manager s))))
               (fst (_save_history (now ev) (save_outcome ev) (set_sent_images ∅ s))))) = ∅)
    as Hempty.
  { cbn. rewrite save_history_unfold. by destruct (save_outcome ev). }
  assert (same_setup s
            (add_log (LogHistoryReset (size (sent_images (history_manager s))))
               (fst (_save_history (now ev) (save_outcome ev) (set_sent_images ∅ s)))))
    as Hsetup.
  { rewrite save_history_unfold. by destruct (save_outcome ev). }
  destruct (answer _); cbn [fst snd];
    (split_and!; [done|done| |done]);
    rewrite get_unsent_images_empty by done; by destruct Hsetup as (_ & -> & _).
Qed.



End HistoryCommands.

(** ** The sync tool *)

Section Sync.

Implicit Types (h : host) (self : GoogleDriveSync) (local_path : string).

(** The upload loop counts the uploads that succeed and creates their
    files in order. *)
Lemma upload_each_spec h local_path new_images n self :
  let uploaded :=
    List.filter (λ x, path_exists h (os_path_join local_path x)
                      && bool_decide (create_file h x = None)) new_images in
  let r := upload_each h local_path new_images n self in
  snd r = (n + length uploaded)%nat ∧
  created (fst r) = (created self ++ uploaded)%list ∧
  gd_manager (fst r) = gd_manager self.
Proof.
  cbv zeta. revert n self.
  induction new_images as [|image rest IH]; intros n self; cbn [upload_each List.filter].
  - cbn. by rewrite Nat.add_0_r, app_nil_r.
  - unfold upload_image.
    destruct (path_exists h (os_path_join local_path image)); cbn [negb andb].
    + destruct (create_file h image) as [e|] eqn:Hcreate.
      * rewrite bool_decide_eq_false_2 by done.
        destruct (IH n (sync_logger (LogUploadFailed image e) self)) as (H1 & H2 & H3).
        by split_and!.
      * rewrite bool_decide_eq_true_2 by done.
        destruct (IH (S n) (mkSync (gd_manager self) (created self ++ [image])
                                   (sync_log self ++ [LogUploaded image])))
          as (H1 & H2 & H3).
        split_and!; [|by rewrite H2; cbn; rewrite <- app_assoc|done].
        rewrite H1. cbn [length]. lia.
    + destruct (IH n (sync_logger (LogUploadFileNotFound (os_path_join local_path image)) self))
        as (H1 & H2 & H3).
      by split_and!.
Qed.

(** [sync_once] when the local folder can be listed. *)
Lemma sync_once_listed h local_path self entries :
  path_exists h local_path = true →
  iterdir h local_path = Ret entries →
  let local_images :=
    map entry_name
        (List.filter (λ f, entry_is_file f && has_image_suffix (entry_name f)) entries) in
  let manager := fst (fst (load_images_method h (gd_manager self))) in
  let uploaded :=
    List.filter (λ x, path_exists h (os_path_join local_path x)
                      && bool_decide (create_file h x = None))
      (List.filter (λ img, negb (bool_decide (img ∈ get_image_list manager)))
                   local_images) in
  let r := sync_once h local_path self in
  snd r = Ret (length uploaded) ∧
  created (fst r) = (created self ++ uploaded)%list ∧
  gd_manager (fst r) = manager.
Proof.
  intros Hpath Hdir. cbv zeta.
  unfold sync_once, get_local_images, get_gdrive_images. rewrite Hpath, Hdir. cbn [negb].
  destruct (load_images_method h (gd_manager (sync_logger LogSyncStarting self)))
    as [[manager line] loaded] eqn:Hload.
  cbn [gd_manager sync_logger] in Hload. rewrite Hload. cbn [fst].
  destruct (List.filter (λ img, negb (bool_decide (img ∈ get_image_list manager))) _)
    as [|img new_images] eqn:Hnew.
  - cbn. by rewrite app_nil_r.
  - pose proof (upload_each_spec h local_path (img :: new_images) 0
                  (sync_logger (LogFoundNew (length (img :: new_images)))
                     (mkSync manager (created (sync_logger LogSyncStarting self))
                        (sync_log (sync_logger LogSyncStarting self) ++ [LogDrive line]))))
      as Heach.
    cbv zeta in Heach.
    destruct (upload_each _ _ _ _ _) as [self' uploaded_count].
    cbn [fst snd] in Heach. destruct Heach as (Hcount & Hcreated & Hmanager).
    cbn [fst snd sync_logger created gd_manager]. by rewrite Hcount, Hcreated, Hmanager.
Qed.

(** X26. [sync_once]: with the local folder missing it uploads nothing
    and answers 0; an error of the directory listing leaves the function
    before Drive is asked; otherwise it answers the number of files it
    has created on Drive, and it creates a file exactly for the names of
    the local image files that are not known to be on Drive, that still
    exist and whose upload succeeds.  The names known to be on Drive are
    those of the listing when it succeeds, and those of the last listing
    that succeeded when it fails. *)
Theorem sync_once_spec h local_path self :
  let r := sync_once h local_path self in
  let known :=
    match drive_files h with
    | Ret files => map snd (List.filter (λ file, has_image_ending (snd file)) files)
    | Raise _ => get_image_list (gd_manager self)
    end in
  (path_exists h local_path = false →
     snd r = Ret O ∧ created (fst r) = created self) ∧
  (path_exists h local_path = true →
     match iterdir h local_path with
     | Raise e =>
         snd r = Raise e ∧ created (fst r) = created self ∧
         gd_manager (fst r) = gd_manager self
     | Ret entries =>
         ∃ uploaded,
           snd r = Ret (length uploaded) ∧
           created (fst r) = (created self ++ uploaded)%list ∧
           get_image_list (gd_manager (fst r)) = known ∧
           ∀ x, x ∈ uploaded ↔
                (∃ f, f ∈ entries ∧ entry_name f = x ∧ entry_is_file f = true ∧
                      has_image_suffix x = true) ∧
                (x ∉ known) ∧
                path_exists h (os_path_join local_path x) = true ∧
                create_file h x = None
     end).
Proof.
  cbv zeta. split.
  - intros Hpath. unfold sync_once, get_local_images, get_gdrive_images.
    rewrite Hpath. cbn [negb].
    by destruct (load_images_method h _) as [[manager line] loaded].
  - intros Hpath. destruct (iterdir h local_path) as [entries|e] eqn:Hdir.
    + destruct (sync_once_listed h local_path self entries Hpath Hdir) as (Hr & Hc & Hm).
      eexists. split_and!; [exact Hr|exact Hc| |].
      * rewrite Hm. unfold load_images_method. by destruct (drive_files h).
      * intros x.
        assert (get_image_list (fst (fst (load_images_method h (gd_manager self)))) =
                match drive_files h with
                | Ret files =>
                    map snd (List.filter (λ file, has_image_ending (snd file)) files)
                | Raise _ => get_image_list (gd_manager self)
                end) as ->.
        { unfold load_images_method. by destruct (drive_files h). }
        rewrite list_elem_of_In, !filter_In, <- !list_elem_of_In.
        rewrite list_elem_of_fmap, andb_true_iff, negb_true_iff, bool_decide_eq_false,
          bool_decide_eq_true.
        split.
        -- intros [[(f & -> & Hf) Hknown] [Hexists Hcreate]].
           apply list_elem_of_In, filter_In in Hf as [Hf [Hfile Hsuf]%andb_true_iff].
           apply list_elem_of_In in Hf. split_and!; [|done..]. by exists f.
        -- intros ((f & Hf & <- & Hfile & Hsuf) & Hknown & Hexists & Hcreate).
           split_and!; [|done..]. exists f. split; [done|].
           apply list_elem_of_In, filter_In. rewrite <- list_elem_of_In, andb_true_iff. done.
    + unfold sync_once, get_local_images. by rewrite Hpath, Hdir.
Qed.

(** X27. A round of [sync_loop] whose listing fails compares the local
    folder with the names of the last listing that succeeded, which does
    not hold what the rounds since then have uploaded.  So when a round
    that lists Drive and uploads every new image is followed by a round
    in which only the listing fails, every image uploaded in the first
    round is uploaded a second time. *)
Theorem sync_loop_stale_listing h local_path interval self entries files e :
  path_exists h local_path = true →
  iterdir h local_path = Ret entries →
  drive_files h = Ret files →
  (∀ x, path_exists h (os_path_join local_path x) = true) →
  (∀ x, create_file h x = None) →
  let failing :=
    mkHost (path_exists h) (iterdir h) (authenticate h) (Raise e) (create_file h)
           (build_application h) in
  let new_images :=
    List.filter
      (λ img, negb (bool_decide
         (img ∈ map snd (List.filter (λ file, has_image_ending (snd file)) files))))
      (map entry_name
         (List.filter (λ f, entry_is_file f && has_image_suffix (entry_name f)) entries)) in
  created (sync_loop [h] local_path interval self) = (created self ++ new_images)%list ∧
  created (sync_loop [h; failing] local_path interval self)
    = (created self ++ new_images ++ new_images)%list.
Proof.
  intros Hpath Hdir Hfiles Hexists Hcreate. cbv zeta.
  assert (Hall : ∀ (g : host) l,
            (∀ x, path_exists g (os_path_join local_path x) = true) →
            (∀ x, create_file g x = None) →
            List.filter (λ x, path_exists g (os_path_join local_path x)
                              && bool_decide (create_file g x = None)) l = l).
  { intros g l Hex Hcr. induction l as [|x l IH]; [done|]. cbn [List.filter].
    rewrite Hex, bool_decide_eq_true_2 by apply Hcr. cbn. by rewrite IH. }
  cbn [sync_loop].
  pose proof (sync_once_listed h local_path self entries Hpath Hdir) as H1.
  cbv zeta in H1. rewrite Hall in H1 by done.
  unfold load_images_method in H1. rewrite Hfiles in H1. cbn [fst get_image_list images] in H1.
  destruct (sync_once h local_path self) as [self1 r1].
  cbn [fst snd] in H1. destruct H1 as (-> & Hc1 & Hm1).
  split; [exact Hc1|].
  set (failing := mkHost _ _ _ _ _ _).
  pose proof (sync_once_listed failing local_path (sync_logger (LogNextSync interval) self1)
                entries Hpath Hdir) as H2.
  cbv zeta in H2. rewrite Hall in H2 by done.
  unfold load_images_method in H2.
  cbn [drive_files failing fst get_image_list gd_manager sync_logger created] in H2.
  rewrite Hm1 in H2. cbn [images] in H2.
  destruct (sync_once failing local_path _) as [self2 r2].
  cbn [fst snd] in H2. destruct H2 as (-> & Hc2 & _).
  cbn [sync_logger created]. by rewrite Hc2, Hc1, <- app_assoc.
Qed.

(** Two rounds on the machine of [folder_host], the second with a
    failing listing: ["a.jpg"] is created twice. *)
Lemma sync_loop_stale_listing_witness :
  created (sync_loop [folder_host] "/srv/pictures" 300 new_sync) = ["a.jpg"] ∧
  created (sync_loop
             [ folder_host;
               mkHost (path_exists folder_host) (iterdir folder_host)
                      (authenticate folder_host) (Raise HttpError)
                      (create_file folder_host) (build_application folder_host) ]
             "/srv/pictures" 300 new_sync)
    = ["a.jpg"; "a.jpg"].
Proof.
  exact (sync_loop_stale_listing folder_host "/srv/pictures" 300 new_sync _ _ HttpError
           eq_refl eq_refl eq_refl (λ _, eq_refl) (λ _, eq_refl)).
Defined.

(** X28. When Drive lists every image of the local folder, [sync_once]
    uploads nothing and answers 0: a name that passes the test of the
    local folder also passes the test of the Drive listing. *)
Theorem sync_once_in_sync h local_path self entries files :
  path_exists h local_path = true →
  iterdir h local_path = Ret entries →
  drive_files h = Ret files →
  (∀ f, f ∈ entries → entry_is_file f = true → has_image_suffix (entry_name f) = true →
        entry_name f ∈ map snd files) →
  snd (sync_once h local_path self) = Ret O ∧
  created (fst (sync_once h local_path self)) = created self.
Proof.
  intros Hpath Hdir Hfiles Hlisted.
  destruct (sync_once_listed h local_path self entries Hpath Hdir) as (Hr & Hc & _).
  unfold load_images_method in Hr, Hc. rewrite Hfiles in Hr, Hc.
  cbn [fst] in Hr, Hc. unfold get_image_list in Hr, Hc. cbn [images] in Hr, Hc.
  assert (List.filter
            (λ img, negb (bool_decide
               (img ∈ map snd (List.filter (λ file, has_image_ending (snd file)) files))))
            (map entry_name
               (List.filter (λ f, entry_is_file f && has_image_suffix (entry_name f))
                            entries)) = []) as Hnone.
  { clear Hr Hc Hdir. induction entries as [|f entries IH]; [done|].
    cbn [List.filter].
    assert (∀ f, f ∈ entries → entry_is_file f = true →
                 has_image_suffix (entry_name f) = true → entry_name f ∈ map snd files)
      as Hrest by (intros g Hg; apply Hlisted; by right).
    destruct (entry_is_file f) eqn:Hfile; cbn [andb]; [|by apply IH].
    destruct (has_image_suffix (entry_name f)) eqn:Hsuf; [|by apply IH].
    cbn [map List.filter].
    rewrite bool_decide_eq_true_2; [by apply IH|].
    pose proof (Hlisted f (list_elem_of_here _ _) Hfile Hsuf) as Hin.
    apply list_elem_of_fmap in Hin as (file & Hname & Hin).
    apply list_elem_of_fmap. exists file. split; [done|].
    apply list_elem_of_In, filter_In. rewrite <- list_elem_of_In. split; [done|].
    rewrite <- Hname. by apply has_image_suffix_ending. }
  rewrite Hnone in Hr, Hc. cbn in Hr, Hc. by rewrite app_nil_r in Hc.
Qed.

(** A round on a machine whose Drive folder lists both images. *)
Lemma sync_once_in_sync_witness :
  let h := mkHost (path_exists folder_host) (iterdir folder_host) (authenticate folder_host)
                  (Ret [("id-a", "a.jpg"); ("id-b", "b.jpg")])
                  (create_file folder_host) (build_application folder_host) in
  snd (sync_once h "/srv/pictures" new_sync) = Ret O ∧
  created (fst (sync_once h "/srv/pictures" new_sync)) = created new_sync.
Proof.
  intros h.
  apply (sync_once_in_sync h "/srv/pictures" new_sync
           [ mkEntry "/srv/pictures/a.jpg" "a.jpg" true;
             mkEntry "/srv/pictures/b.jpg" "b.jpg" true;
             mkEntry "/srv/pictures/notes.txt" "notes.txt" true ]
           [("id-a", "a.jpg"); ("id-b", "b.jpg")]).
  - reflexivity.
  - reflexivity.
  - reflexivity.
  - intros f Hf Hfile Hsuf.
    apply elem_of_cons in Hf as [->|Hf]; [cbn; set_solver|].
    apply elem_of_cons in Hf as [->|Hf]; [cbn; set_solver|].
    apply elem_of_cons in Hf as [->|Hf]; [by vm_compute in Hsuf|].
    by apply elem_of_nil in Hf.
Defined.

End Sync.

(** ** The configuration check *)

Section CheckConfig.

Lemma enumerate_spec {A} (start : Z) (l : list A) :
  map snd (enumerate start l) = l ∧
  map fst (enumerate start l) = map (λ i, (start + Z.of_nat i)%Z) (seq 0 (length l)).
Proof.
  revert start. induction l as [|x l IH]; intros start; [done|].
  cbn [enumerate map length seq fst snd]. destruct (IH (start + 1)%Z) as [-> ->].
  split; [done|]. f_equal; [lia|].
  rewrite <- seq_shift, map_map. apply map_ext. intros i. lia.
Qed.

(** X29. [check_config] never divides by zero: the validation it runs
    first lets it compute the sends per day only with a positive
    interval.  It exits with 0 exactly when the settings are valid, and
    then reports between 0 and 23 sends per day, the largest [n] with
    [n * SEND_INTERVAL <= END_HOUR - START_HOUR]; otherwise it exits with
    1 and lists the errors of [is_valid] in order, numbered from 1. *)
Theorem check_config_spec (ex : string → bool) (c : Settings.t) :
  ∃ report code,
    check_config ex c = Some (report, code) ∧
    (code = 0%Z ↔ fst (is_valid ex c) = true) ∧
    match report with
    | ReportValid n =>
        code = 0%Z ∧ (0 ≤ n ≤ 23)%Z ∧
        (n * Settings.SEND_INTERVAL c ≤ Settings.END_HOUR c - Settings.START_HOUR c
           < (n + 1) * Settings.SEND_INTERVAL c)%Z
    | ReportIssues issues =>
        code = 1%Z ∧ issues ≠ [] ∧
        map snd issues = snd (is_valid ex c) ∧
        map fst issues = map (λ i, (1 + Z.of_nat i)%Z) (seq 0 (length issues))
    end.
Proof.
  unfold check_config.
  pose proof (is_valid_checks ex c) as Hchecks.
  assert (fst (is_valid ex c) = Nat.eqb (length (snd (is_valid ex c))) 0) as Hlen by done.
  destruct (is_valid ex c) as [valid errors]. cbn [fst snd] in *.
  destruct valid.
  - destruct Hchecks as [Hchecks _].
    destruct (Hchecks eq_refl) as (_ & _ & _ & Hi & Hs & He & Ho).
    apply orb_false_iff in Hs as [Hs1 Hs2]. apply orb_false_iff in He as [He1 He2].
    unfold floordiv.
    destruct (Z.eqb_spec (Settings.SEND_INTERVAL c) 0) as [Hz|_]; [lia|].
    eexists _, _. split; [reflexivity|]. split; [done|].
    split; [done|].
    pose proof (Z.div_mod (Settings.END_HOUR c - Settings.START_HOUR c)
                  (Settings.SEND_INTERVAL c) ltac:(lia)) as Hdiv.
    pose proof (Z.mod_pos_bound (Settings.END_HOUR c - Settings.START_HOUR c)
                  (Settings.SEND_INTERVAL c) ltac:(lia)) as Hmod.
    split; [|nia].
    split; [apply Z.div_pos; lia|].
    apply Z.div_le_upper_bound; lia.
  - destruct (enumerate_spec 1 errors) as [Hsnd Hfst].
    eexists _, _. split; [reflexivity|]. split; [done|].
    split_and!; [done| |done|].
    + destruct errors; [done|]. done.
    + rewrite Hfst. f_equal. f_equal.
      by rewrite <- (length_map fst), Hfst, length_map, length_seq.
Qed.

End CheckConfig.
